(** * Ballot-validity gates and exponential ElGamal of ballotsnarks

    A shallow embedding of [src/gates/listgates.py],
    [src/gates/voting/ballots.py] and [src/gates/expelgamalgates.py].

    A gate is a Python function that derives wires and registers
    assertions.  It is embedded as a computation in the monad [M]: the
    assertions it has registered, in program order, and either the value it
    returns or the exception that stopped it.  Evaluating the registered
    assertions over a concrete group gives the outcome of a run. *)

From Stdlib Require Import ZArith List Lia Bool Arith Permutation FinFun.
Import ListNotations.
Local Open Scope Z_scope.

(** ** The group and its wires *)

(** Modelled from the spec: [src/groups/group.py] is not among the sources.
    The data model describes a group as supplying addition, subtraction and
    multiplication, all modulo a fixed order, together with the embedding
    [gen(n)] of an integer, and a native bit capacity in which every element
    fits.  The order is larger than one, so that [gen(0)] and [gen(1)]
    differ. *)
Record Group : Type := mkGroup {
  order : Z;
  bit_capacity : nat;
  order_gt_1 : 1 < order;
  order_fits : order <= 2 ^ Z.of_nat bit_capacity
}.

(** Modelled from the spec: [src/groups/wiregroup.py] is not among the
    sources.  A wire carries an integer; the value it stands for is its
    residue modulo the order of the group. *)
Abbreviation Wire := Z (only parsing).

Definition val (G : Group) (w : Wire) : Z := w mod order G.

Definition gen (G : Group) (n : Z) : Wire := n mod order G.

Definition wadd (G : Group) (a b : Wire) : Wire := (a + b) mod order G.
Definition wsub (G : Group) (a b : Wire) : Wire := (a - b) mod order G.
Definition wmul (G : Group) (a b : Wire) : Wire := (a * b) mod order G.

(** Python's [sum(xs)]: [0 + xs[0] + xs[1] + ...], from the left. *)
Definition wsum (G : Group) (xs : list Wire) : Wire :=
  fold_left (wadd G) xs 0.

Definition weqb (G : Group) (a b : Wire) : bool := val G a =? val G b.

Definition is_bit (G : Group) (w : Wire) : bool :=
  weqb G w 0 || weqb G w 1.

Definition fits (G : Group) (w : Wire) (bits : nat) : bool :=
  val G w <? 2 ^ Z.of_nat bits.

(** ** Assertions and the gate monad *)

(** The three assertion primitives of [src/gates/assertgates.py] that the
    gates call. *)
Inductive Constraint : Type :=
| AssertBit (w : Wire)
| AssertEqual (left right : list Wire)
| AssertGt (bound value : Wire) (bits : nat).

Inductive exn : Type :=
| IndexError
| PreconditionError.

(** The assertions registered so far, and the returned value or the
    exception raised. *)
Definition M (A : Type) : Type := (list Constraint * (exn + A))%type.

Definition ret {A} (a : A) : M A := ([], inr a).

Definition raise {A} (e : exn) : M A := ([], inl e).

Definition bind {A B} (m : M A) (f : A -> M B) : M B :=
  match m with
  | (cs, inl e) => (cs, inl e)
  | (cs, inr a) => let (cs', r) := f a in (cs ++ cs', r)
  end.

Declare Scope gate_scope.
Delimit Scope gate_scope with gate.
Notation "x <- m ;; k" := (bind m (fun x => k))
  (at level 61, m at next level, right associativity) : gate_scope.
Notation "m ;; k" := (bind m (fun _ => k))
  (at level 61, right associativity) : gate_scope.
Local Open Scope gate_scope.

Definition emit (c : Constraint) : M unit := ([c], inr tt).

Definition asserted {A} (m : M A) : list Constraint := fst m.
Definition result {A} (m : M A) : exn + A := snd m.

(** [for x in xs: body(x)] *)
Fixpoint for_each {A} (xs : list A) (body : A -> M unit) : M unit :=
  match xs with
  | [] => ret tt
  | x :: xs' => body x ;; for_each xs' body
  end.

(** A list comprehension [[f(x) for x in xs]] whose [f] is a gate. *)
Fixpoint map_m {A B} (f : A -> M B) (xs : list A) : M (list B) :=
  match xs with
  | [] => ret []
  | x :: xs' => y <- f x ;; ys <- map_m f xs' ;; ret (y :: ys)
  end.

(** A loop that carries an accumulator:
    [for x in xs: acc = body(acc, x)]. *)
Fixpoint fold_m {A S} (body : S -> A -> M S) (xs : list A) (acc : S) : M S :=
  match xs with
  | [] => ret acc
  | x :: xs' => acc' <- body acc x ;; fold_m body xs' acc'
  end.

(** [xs[i]]; the indices of this code are never negative. *)
Definition index {A} (xs : list A) (i : nat) : M A :=
  match nth_error xs i with
  | Some x => ret x
  | None => raise IndexError
  end.

(** [enumerate(xs)] *)
Definition enumerate {A} (xs : list A) : list (nat * A) :=
  combine (seq 0 (length xs)) xs.

(** ** The collaborators *)

(** Modelled from the spec: [src/gates/assertgates.py] is not among the
    sources.  Section 6: [assert_bit(w)] constrains [w] to 0 or 1;
    [assert_equal(group, seqA, seqB)] constrains the elementwise equality of
    two sequences of equal length; [assert_gt(group, bound, value, bits)]
    constrains [bound] to exceed [value] and is valid only when [value]
    fits in [bits] bits.  Each registers one assertion. *)
Definition assert_bit (w : Wire) : M unit := emit (AssertBit w).
Definition assert_equal (G : Group) (l r : list Wire) : M unit :=
  emit (AssertEqual l r).
Definition assert_gt (G : Group) (bound value : Wire) (bits : nat) : M unit :=
  emit (AssertGt bound value bits).

Fixpoint elementwise (G : Group) (l r : list Wire) : bool :=
  match l, r with
  | [], [] => true
  | a :: l', b :: r' => weqb G a b && elementwise G l' r'
  | _, _ => false
  end.

(** Modelled from the spec: what [assert_equal] constrains.  On sequences of
    equal length it is the elementwise equality of section 6.  The one call
    with sequences of different lengths is that of [assert_single_vote],
    [assert_equal(group, ballot, [group.gen(1)])], which section 4.3 (and
    the docstring of the function) describes as constraining the sum of the
    entries to equal [gen(1)]: there the sums of the two sides are
    compared. *)
Definition equal_holds (G : Group) (l r : list Wire) : bool :=
  if Nat.eqb (length l) (length r)
  then elementwise G l r
  else weqb G (wsum G l) (wsum G r).

Inductive verdict : Type := Holds | Violated | Unfit.

(** Modelled from the spec: the comparison that [assert_gt] and [gt] make.
    Neither [assertgates] nor [comparison] is among the sources, and the
    spec and the docstrings read the comparison differently.  Section 6 of
    the spec reads it strictly, [bound > value] and [a > b] ([Strict]).
    The docstring of [assert_multi_vote] ("each entry is at most
    max_votes_per_candidate", "only 0 or 1 vote per candidate" for the cap
    [gen(1)]) and the name [n_truely_greater] for the count of
    [gt(ranking_val - 1, comp_val)] read it as [bound >= value] and
    [a >= b] ([AtLeast]).  The comparisons take the reading as a
    parameter. *)
Inductive reading : Type := Strict | AtLeast.

(** [a] exceeds [b], in a reading. *)
Definition exceeds (rd : reading) (a b : Z) : bool :=
  match rd with
  | Strict => b <? a
  | AtLeast => b <=? a
  end.

(** Modelled from the spec: the meaning of each assertion over a concrete
    group (sections 6 and 7).  A comparison whose [value] does not fit in
    [bits] bits is outside the contract of the comparison. *)
Definition check_as (rd : reading) (G : Group) (c : Constraint) : verdict :=
  match c with
  | AssertBit w => if is_bit G w then Holds else Violated
  | AssertEqual l r => if equal_holds G l r then Holds else Violated
  | AssertGt bound value bits =>
      if fits G value bits
      then if exceeds rd (val G bound) (val G value)
           then Holds else Violated
      else Unfit
  end.

Inductive outcome : Type :=
| Succeeds
| ConstraintViolation
| Raises (e : exn).

(** The first assertion that does not hold stops a run. *)
Fixpoint first_failure_as (rd : reading) (G : Group) (cs : list Constraint)
  : option outcome :=
  match cs with
  | [] => None
  | c :: cs' =>
      match check_as rd G c with
      | Holds => first_failure_as rd G cs'
      | Violated => Some ConstraintViolation
      | Unfit => Some (Raises PreconditionError)
      end
  end.

Definition run_as {A} (rd : reading) (G : Group) (m : M A) : outcome :=
  match first_failure_as rd G (asserted m) with
  | Some o => o
  | None => match result m with
            | inl e => Raises e
            | inr _ => Succeeds
            end
  end.

(** The reading of the spec is the one used where no reading is named. *)
Abbreviation check := (check_as Strict).
Abbreviation first_failure := (first_failure_as Strict).
Abbreviation run := (run_as Strict).

(** Modelled from the spec: [src/gates/comparison.py] is not among the
    sources.  Section 6: [eq(group, a, b)] returns a binary wire, 1 iff
    [a == b]; [gt(group, a, b, bits)] returns a binary wire, 1 iff [a]
    exceeds [b], valid only when both operands fit in [bits] bits. *)
Definition eq_gate (G : Group) (a b : Wire) : Wire :=
  if weqb G a b then 1 else 0.

Definition gt_gate (rd : reading) (G : Group) (a b : Wire) (bits : nat)
  : M Wire :=
  if fits G a bits && fits G b bits
  then ret (if exceeds rd (val G a) (val G b) then 1 else 0)
  else raise PreconditionError.

(** Modelled from the spec: [src/gates/bits.py] is not among the sources.
    Section 6: [and_gate(group, bits)] is the logical AND of a sequence of
    binary wires, realised as their product. *)
Definition and_gate (G : Group) (bits : list Wire) : Wire :=
  fold_left (wmul G) bits 1.

(** ** src/gates/listgates.py *)

Definition get_n_occurences (G : Group) (wires : list Wire) (wire : Wire)
  : Wire :=
  fold_left (fun n_occurences wire_in_list =>
               let ind_eq := eq_gate G wire_in_list wire in
               wadd G n_occurences ind_eq)
            wires (gen G 0).

(** ** src/gates/voting/ballots.py *)

Definition assert_single_vote (G : Group) (ballot : list Wire) : M unit :=
  for_each ballot (fun wire => assert_bit wire) ;;
  assert_equal G ballot [gen G 1].

(** The default of the parameter [bits] of [assert_multi_vote]. *)
Definition default_bits : nat := 1.

Definition assert_multi_vote (G : Group) (ballot : list Wire)
    (max_choices : option Wire) (bits : nat)
    (max_votes_per_candidate : option Wire) (totalbits : option nat)
  : M unit :=
  let max_votes_per_candidate :=
    match max_votes_per_candidate with
    | None => gen G 1
    | Some w => w
    end in
  let totalbits :=
    match totalbits with
    | None => length ballot
    | Some t => t
    end in
  for_each ballot
    (fun wire => assert_gt G max_votes_per_candidate wire bits) ;;
  match max_choices with
  | Some max_choices =>
      let n_choices := wsum G ballot in
      assert_gt G max_choices n_choices totalbits
  | None => ret tt
  end.

Definition assert_multi_vote_with_rules (G : Group) (ballot : list Wire)
    (max_choices : option Wire) (bits : nat)
    (max_votes_per_candidate : option Wire) (totalbits : option nat)
  : M unit :=
  assert_multi_vote G ballot max_choices bits max_votes_per_candidate
    totalbits ;;
  if (2 <? length ballot)%nat
  then b1 <- index ballot 1 ;;
       b2 <- index ballot 2 ;;
       b0 <- index ballot 0 ;;
       assert_equal G [wmul G b1 b2] [b0]
  else ret tt.

(** The body of the loop of [assert_line_vote_ballot], for one [idx]. *)
Definition line_vote_step (G : Group) (ballot : list Wire)
    (indicator_bit_up : Wire) (idx : nat) : M Wire :=
  next <- index ballot (idx + 1) ;;
  assert_bit next ;;
  a <- index ballot (idx + 1) ;;
  b <- index ballot idx ;;
  c <- index ballot (idx + 1) ;;
  ret (wadd G indicator_bit_up (wmul G (wsub G a b) c)).

Definition assert_line_vote_ballot (G : Group) (ballot : list Wire)
  : M unit :=
  first <- index ballot 0 ;;
  assert_bit first ;;
  indicator_bit_up <- index ballot 0 ;;
  indicator_bit_up <-
    fold_m (line_vote_step G ballot) (seq 0 (length ballot - 1))
           indicator_bit_up ;;
  assert_bit indicator_bit_up.

Definition assert_pointlist_borda_ballot (G : Group) (ballot : list Wire)
    (ordered_points : list Wire) : M unit :=
  let expected_zeros :=
    gen G (Z.of_nat (length ballot) - Z.of_nat (length ordered_points)) in
  let num_zeros := get_n_occurences G ballot (gen G 0) in
  assert_equal G [expected_zeros] [num_zeros] ;;
  for_each ordered_points
    (fun point =>
       let n_occ := get_n_occurences G ballot point in
       assert_equal G [n_occ] [gen G 1]).

(** [[c for j, c in enumerate(xs) if j != i]] *)
Definition others {A} (i : nat) (xs : list A) : list A :=
  map snd (filter (fun jc => negb (Nat.eqb (fst jc) i)) (enumerate xs)).

Definition borda_points (rd : reading) (G : Group) (ranking : list Wire)
    (bits : nat) (i : nat) (ranking_val : Wire) : M Wire :=
  gts <- map_m (fun comp_val =>
                  gt_gate rd G (wsub G ranking_val 1) comp_val bits)
               (others i ranking) ;;
  let n_truely_greater := wsum G gts in
  let n_eq :=
    wsum G (map (fun comp_val => eq_gate G ranking_val comp_val)
                (others i ranking)) in
  ret (wadd G (wmul G 2 n_truely_greater) n_eq).

Definition compute_borda_tournament_style_ballot (rd : reading)
    (G : Group) (ranking : list Wire) (bits : nat) : M (list Wire) :=
  map_m (fun ir => borda_points rd G ranking bits (fst ir) (snd ir))
        (enumerate ranking).

(** [ballot[i][j]] *)
Definition index2 (ballot : list (list Wire)) (i j : nat) : M Wire :=
  row <- index ballot i ;; index row j.

(** [itertools.product(range(n), range(n), range(n))] *)
Definition product3 (n : nat) : list (nat * nat * nat) :=
  flat_map (fun i =>
    flat_map (fun j => map (fun k => (i, j, k)) (seq 0 n)) (seq 0 n))
    (seq 0 n).

(** The body of the second loop of [assert_condorcet_ballot]. *)
Definition condorcet_triple (G : Group) (ballot : list (list Wire))
    (ijk : nat * nat * nat) : M unit :=
  let '(i, j, k) := ijk in
  if Nat.eqb i j || Nat.eqb i k || Nat.eqb j k then ret tt
  else
    value_i_j <- index2 ballot i j ;;
    value_j_i <- index2 ballot j i ;;
    b_j_i <- index2 ballot j i ;;
    let check_matrix_i_j := wsub G (gen G 1) b_j_i in
    b_k_j <- index2 ballot k j ;;
    let check_matrix_j_k := wsub G (gen G 1) b_k_j in
    b_k_i <- index2 ballot k i ;;
    let check_matrix_i_k := wsub G (gen G 1) b_k_i in
    assert_bit (wsum G [value_i_j; value_j_i]) ;;
    let ind_false :=
      and_gate G [check_matrix_i_j; check_matrix_j_k;
                  wsub G 1 check_matrix_i_k] in
    assert_equal G [ind_false] [gen G 0].

(** The body of the first loop of [assert_condorcet_ballot]. *)
Definition condorcet_row (i : nat) (row : list Wire) : M unit :=
  for_each (enumerate row)
    (fun je => if Nat.eqb i (fst je) then ret tt else assert_bit (snd je)).

Definition assert_condorcet_ballot (G : Group) (ballot : list (list Wire))
  : M unit :=
  for_each (enumerate ballot)
    (fun ir => condorcet_row (fst ir) (snd ir)) ;;
  for_each (product3 (length ballot)) (condorcet_triple G ballot).

Definition assert_majority_judgment_ballot (G : Group)
    (ballot : list (list Wire)) : M unit :=
  for_each ballot (fun row => assert_single_vote G row).

(** ** Concrete groups used in the examples *)

(** The integers modulo 3. *)
Definition Z3 : Group.
Proof.
  refine (mkGroup 3 2 _ _); [reflexivity | discriminate].
Defined.

(** The scalar field of the curve BN254, of 254 bits. *)
Definition bn254_order : Z :=
  21888242871839275222246405745257275088548364400416034343698204186575808495617.

Definition BN254 : Group.
Proof.
  refine (mkGroup bn254_order 254 _ _); [reflexivity | discriminate].
Defined.

(** ** src/gates/expelgamalgates.py *)

(** The [n] low bits of [v], most significant first. *)
Fixpoint to_bits (n : nat) (v : Z) : list Z :=
  match n with
  | O => []
  | S n' => (v / 2 ^ Z.of_nat n') mod 2 :: to_bits n' v
  end.

(** The number that a sequence of bit wires spells, most significant
    first. *)
Definition bits_value (G : Group) (bits : list Wire) : Z :=
  fold_left (fun acc b => 2 * acc + val G b) bits 0.

(** Modelled from the spec: [bitgates.split] of [src/gates/bits.py] is not
    among the sources.  Section 6: [split(group, x, bit_length?)] returns
    the binary wires that represent [x], most significant bit first, and is
    undefined if [x] does not fit in [bit_length] bits; section 4.2: without
    [bit_length] the native bit capacity of the group is used. *)
Definition split (G : Group) (x : Wire) (bit_length : option nat)
  : M (list Wire) :=
  let n := match bit_length with
           | Some n => n
           | None => bit_capacity G
           end in
  if fits G x n then ret (to_bits n (val G x)) else raise PreconditionError.

(** Modelled from the spec: [src/gates/ecsmontgomery.py] is not among the
    sources.  The gates use three of its operations, on points whose
    coordinates they never inspect: exponentiation of a point by a scalar
    wire, exponentiation by a sequence of bit wires, and addition of two
    points; each takes the group and the curve parameters [A] and [B]. *)
Record Montgomery : Type := mkMontgomery {
  HomogeneousPoint : Type;
  exponent_homogeneous_point :
    Group -> Wire -> Wire -> HomogeneousPoint -> Wire -> HomogeneousPoint;
  exponent_homogeneous_point_bit_exponent :
    Group -> Wire -> Wire -> HomogeneousPoint -> list Wire ->
    HomogeneousPoint;
  add_homogeneous_points :
    Group -> Wire -> Wire -> HomogeneousPoint -> HomogeneousPoint ->
    HomogeneousPoint
}.

(** Modelled from the spec: the contract of the two exponentiations
    (section 6).  Both are the scalar multiplication [smul] of the curve, by
    the value of a scalar wire or by the number that a bit sequence
    spells. *)
Definition scalar_multiplication (E : Montgomery)
    (smul : Group -> Wire -> Wire -> HomogeneousPoint E -> Z ->
            HomogeneousPoint E) : Prop :=
  (forall G A B P s,
      exponent_homogeneous_point E G A B P s = smul G A B P (val G s)) /\
  (forall G A B P bits,
      exponent_homogeneous_point_bit_exponent E G A B P bits
      = smul G A B P (bits_value G bits)).

Definition exponential_elgamal_over_montgomery_curve_bit_randomness
    (E : Montgomery) (G : Group) (A B : Wire)
    (g pk : HomogeneousPoint E) (x : Wire) (r_bits : list Wire)
    (n_max_bits_x : option nat)
  : M (HomogeneousPoint E * HomogeneousPoint E) :=
  x_bits <- split G x n_max_bits_x ;;
  let gx := exponent_homogeneous_point_bit_exponent E G A B g x_bits in
  let pkr := exponent_homogeneous_point_bit_exponent E G A B pk r_bits in
  let gr := exponent_homogeneous_point_bit_exponent E G A B g r_bits in
  let c := (gr, add_homogeneous_points E G A B gx pkr) in
  ret c.

Definition exponential_elgamal_over_montgomery_curve
    (E : Montgomery) (G : Group) (A B : Wire)
    (g pk : HomogeneousPoint E) (x r : Wire)
  : M (HomogeneousPoint E * HomogeneousPoint E) :=
  let gx := exponent_homogeneous_point E G A B g x in
  let pkr := exponent_homogeneous_point E G A B pk r in
  let gr := exponent_homogeneous_point E G A B g r in
  let c := (gr, add_homogeneous_points E G A B gx pkr) in
  ret c.

(** A toy curve for the examples: the integers under addition, with
    multiplication as exponentiation. *)
Definition toy_curve : Montgomery :=
  mkMontgomery Z
    (fun G _ _ P s => val G s * P)
    (fun G _ _ P bits => bits_value G bits * P)
    (fun _ _ _ P Q => P + Q).

(** ** Predicates of the statements *)

Definition binary (w : Wire) : Prop := w = 0 \/ w = 1.

(** The number of entries of a ballot that are 1. *)
Definition ones (ballot : list Wire) : nat := count_occ Z.eq_dec ballot 1.

(** The ones of a ballot form at most one contiguous run. *)
Definition single_run (ballot : list Wire) : Prop :=
  exists a b c : nat, ballot = repeat 0 a ++ repeat 1 b ++ repeat 0 c.

(** The sum of a list of integers. *)
Definition zsum (xs : list Z) : Z := fold_right Z.add 0 xs.

(** The value of [indicator_bit_up] after the loop, when the loop is at
    the entry [prev] with the entries [rest] still to come. *)
Fixpoint line_up (G : Group) (prev : Wire) (rest : list Wire) (up : Wire)
  : Wire :=
  match rest with
  | [] => up
  | next :: rest' =>
      line_up G next rest' (wadd G up (wmul G (wsub G next prev) next))
  end.

(** The same sum over the integers: on a binary ballot, the number of
    steps from 0 to 1. *)
Fixpoint rises (prev : Z) (rest : list Z) : Z :=
  match rest with
  | [] => 0
  | next :: rest' => (next - prev) * next + rises next rest'
  end.

(** On a binary ballot, the number of runs of ones. *)
Definition runs (ballot : list Z) : Z :=
  match ballot with
  | [] => 0
  | first :: rest => first + rises first rest
  end.

(** The number of entries whose value is that of [wire]. *)
Definition occurrences (G : Group) (wires : list Wire) (wire : Wire) : nat :=
  length (filter (fun wire_in_list => weqb G wire_in_list wire) wires).

(** [ballot[i][j]] of a matrix that has this entry. *)
Definition entry (ballot : list (list Wire)) (i j : nat) : Wire :=
  nth j (nth i ballot []) 0.

(** A matrix of [n] rows of [n] entries each. *)
Definition square (n : nat) (ballot : list (list Wire)) : Prop :=
  length ballot = n /\ Forall (fun row => length row = n) ballot.

(** The assertions of one pass of the second loop. *)
Definition triple_constraints (G : Group) (ballot : list (list Wire))
    (ijk : nat * nat * nat) : list Constraint :=
  let '(i, j, k) := ijk in
  if Nat.eqb i j || Nat.eqb i k || Nat.eqb j k then []
  else
    [AssertBit (wsum G [entry ballot i j; entry ballot j i]);
     AssertEqual
       [and_gate G [wsub G (gen G 1) (entry ballot j i);
                    wsub G (gen G 1) (entry ballot k j);
                    wsub G 1 (wsub G (gen G 1) (entry ballot k i))]]
       [gen G 0]].

(** The matrix of the strict total order in which [i] is preferred to [j]
    when [rank i < rank j]: [ballot[i][j]] is 1 when [i] is preferred to
    [j] and 0 when [j] is preferred to [i]; the diagonal is free. *)
Definition strict_total_order (rank : nat -> nat) (n : nat)
    (ballot : list (list Wire)) : Prop :=
  square n ballot
  /\ (forall i j, (i < n)%nat -> (j < n)%nat -> rank i = rank j -> i = j)
  /\ (forall i j, (i < n)%nat -> (j < n)%nat -> i <> j ->
                  entry ballot i j = if (rank i <? rank j)%nat then 1 else 0).

(** The matrix in which 0 is preferred to 1, 1 to 2 and 2 to 0. *)
Definition three_cycle : list (list Wire) :=
  [[0; 1; 0]; [0; 0; 1]; [1; 0; 0]].

(** The points of a candidate of rank [rv] against the ranks [cs] of its
    opponents, over the integers: two for each opponent that [rv - 1]
    exceeds, one for each opponent of the same rank. *)
Definition score (rd : reading) (rv : Z) (cs : list Z) : Z :=
  2 * zsum (map (fun c => if exceeds rd (rv - 1) c then 1 else 0) cs)
  + zsum (map (fun c => if rv =? c then 1 else 0) cs).

(** [f] applied to each entry of [rest] and the list of the other entries,
    [pre] being the entries before [rest]. *)
Fixpoint each_against {B} (f : Z -> list Z -> B) (pre rest : list Z)
  : list B :=
  match rest with
  | [] => []
  | x :: post => f x (pre ++ post) :: each_against f (pre ++ [x]) post
  end.

(** The value of [points[i]] when every comparison is within its
    contract. *)
Definition point (rd : reading) (G : Group) (rv : Wire) (cs : list Wire)
  : Wire :=
  wadd G
    (wmul G 2
       (wsum G (map (fun c => if exceeds rd (val G (wsub G rv 1)) (val G c)
                              then 1 else 0) cs)))
    (wsum G (map (fun c => eq_gate G rv c) cs)).

(** Ranks at least 1 that are values of the group and fit in [bits]
    bits. *)
Definition rank_in_range (G : Group) (bits : nat) (v : Z) : Prop :=
  1 <= v < order G /\ v < 2 ^ Z.of_nat bits.

(** Two ranks that are neither equal nor adjacent. *)
Definition apart (a b : Z) : Prop := 2 <= Z.abs (a - b).

(** Two ranks of which exactly one exceeds the other's successor: apart
    for the strict comparison, distinct for the other. *)
Definition separated (rd : reading) (a b : Z) : Prop :=
  match rd with
  | Strict => apart a b
  | AtLeast => a <> b
  end.

(** The number of the ranks [cs] that are below [p]. *)
Definition below (p : Z) (cs : list Z) : Z :=
  zsum (map (fun c => if c <? p then 1 else 0) cs).

(** The points of a candidate over the integers in a group of order [q]:
    as [score], with the predecessor of the rank taken in the group. *)
Definition group_score (rd : reading) (q : Z) (rv : Z) (cs : list Z) : Z :=
  2 * zsum (map (fun c => if exceeds rd ((rv - 1) mod q) c then 1 else 0)
                cs)
  + zsum (map (fun c => if rv =? c then 1 else 0) cs).

(** The points of the rank [v] of a ranking [l] without ties, counted on
    the whole of [l]. *)
Definition whole (q : Z) (l : list Z) (v : Z) : Z :=
  2 * (below ((v - 1) mod q) l - (if v <? (v - 1) mod q then 1 else 0)).

(** A rank that is a value of the group and that fits, as does its
    predecessor in the group, in [bits] bits. *)
Definition comparable (G : Group) (bits : nat) (v : Z) : Prop :=
  0 <= v < order G
  /\ v < 2 ^ Z.of_nat bits
  /\ (v - 1) mod order G < 2 ^ Z.of_nat bits.

(** A ranking that is a permutation of 0, ..., n - 1. *)
Definition dense_ranking (ranking : list Z) : Prop :=
  Permutation ranking (map Z.of_nat (seq 0 (length ranking))).

(** * Properties *)

(** ** The gate monad *)

Lemma bind_ret_l {A B} (a : A) (f : A -> M B) : bind (ret a) f = f a.
Proof. unfold bind, ret. destruct (f a). reflexivity. Qed.

Lemma bind_emit {B} (c : Constraint) (k : unit -> M B) :
  bind (emit c) k = (c :: asserted (k tt), result (k tt)).
Proof. unfold bind, emit. destruct (k tt). reflexivity. Qed.

Lemma asserted_bind_ok {A B} (m : M A) (f : A -> M B) (a : A) :
  result m = inr a ->
  asserted (bind m f) = asserted m ++ asserted (f a)
  /\ result (bind m f) = result (f a).
Proof.
  destruct m as [cs [e | a']]; simpl; intros H; inversion H; subst.
  destruct (f a). auto.
Qed.

Lemma for_each_ok {A} (xs : list A) (body : A -> M unit) :
  (forall x, In x xs -> result (body x) = inr tt) ->
  asserted (for_each xs body) = flat_map (fun x => asserted (body x)) xs
  /\ result (for_each xs body) = inr tt.
Proof.
  induction xs as [| x xs IH]; cbn [for_each flat_map]; intros H;
    [auto |].
  destruct (asserted_bind_ok (body x) (fun _ => for_each xs body) tt
              (H x (or_introl eq_refl))) as [Ha Hr].
  destruct (IH (fun y Hy => H y (or_intror Hy))) as [IHa IHr].
  rewrite Ha, Hr, IHa. auto.
Qed.

Lemma for_each_emit {A} (xs : list A) (c : A -> Constraint) :
  for_each xs (fun x => emit (c x)) = (map c xs, inr tt).
Proof.
  induction xs as [| x xs IH]; cbn [for_each]; [reflexivity |].
  rewrite bind_emit, IH. reflexivity.
Qed.

Lemma first_failure_none (rd : reading) (G : Group)
    (cs : list Constraint) :
  first_failure_as rd G cs = None
  <-> Forall (fun c => check_as rd G c = Holds) cs.
Proof.
  induction cs as [| c cs IH]; simpl.
  - split; auto.
  - destruct (check_as rd G c) eqn:E.
    + rewrite IH. split; [auto | intros H; inversion H; auto].
    + split; [discriminate | intros H; inversion H; congruence].
    + split; [discriminate | intros H; inversion H; congruence].
Qed.

Lemma first_failure_app (rd : reading) (G : Group)
    (cs cs' : list Constraint) :
  first_failure_as rd G (cs ++ cs')
  = match first_failure_as rd G cs with
    | Some o => Some o
    | None => first_failure_as rd G cs'
    end.
Proof.
  induction cs as [| c cs IH]; simpl; [reflexivity |].
  destruct (check_as rd G c); auto.
Qed.

(** A run succeeds exactly when the gate returns and every assertion it
    registered holds. *)
Lemma run_succeeds {A} (rd : reading) (G : Group) (m : M A) :
  run_as rd G m = Succeeds <->
  (exists a, result m = inr a)
  /\ Forall (fun c => check_as rd G c = Holds) (asserted m).
Proof.
  unfold run_as. rewrite <- first_failure_none.
  destruct (first_failure_as rd G (asserted m)) as [o |] eqn:E.
  - split.
    + intros ->. exfalso. clear -E.
      induction (asserted m) as [| c cs IH]; simpl in E; [discriminate |].
      destruct (check_as rd G c); try discriminate; auto.
    + intros [_ H]. discriminate.
  - destruct (result m) as [e | a].
    + split; [discriminate | intros [[a H] _]; discriminate].
    + split; eauto.
Qed.

(** A gate that returns fails with a constraint violation as soon as one of
    its assertions is violated and none is outside its contract. *)
Lemma run_violated {A} (rd : reading) (G : Group) (m : M A) :
  Forall (fun c => check_as rd G c <> Unfit) (asserted m) ->
  Exists (fun c => check_as rd G c = Violated) (asserted m) ->
  run_as rd G m = ConstraintViolation.
Proof.
  unfold run_as. intros Hfit Hex.
  induction (asserted m) as [| c cs IH]; [inversion Hex |].
  simpl. inversion Hfit as [| ? ? Hc Hcs]; subst.
  destruct (check_as rd G c) eqn:E; try congruence.
  inversion Hex as [? ? H | ? ? H]; subst; [congruence | auto].
Qed.

(** ** Arithmetic of the group *)

Lemma order_pos (G : Group) : 0 < order G.
Proof. pose proof (order_gt_1 G). lia. Qed.

Lemma val_range (G : Group) (w : Wire) : 0 <= val G w < order G.
Proof. apply Z.mod_pos_bound, order_pos. Qed.

Lemma val_small (G : Group) (w : Wire) :
  0 <= w < order G -> val G w = w.
Proof. apply Z.mod_small. Qed.

Lemma val_0 (G : Group) : val G 0 = 0.
Proof. apply val_small. pose proof (order_pos G). lia. Qed.

Lemma val_1 (G : Group) : val G 1 = 1.
Proof. apply val_small. pose proof (order_gt_1 G). lia. Qed.

Lemma val_val (G : Group) (w : Wire) : val G (val G w) = val G w.
Proof. unfold val. apply Z.mod_mod. pose proof (order_pos G). lia. Qed.

Lemma val_gen (G : Group) (n : Z) : val G (gen G n) = val G n.
Proof. apply val_val. Qed.

Lemma val_wadd (G : Group) (a b : Wire) :
  val G (wadd G a b) = (a + b) mod order G.
Proof. apply val_val. Qed.

Lemma weqb_true (G : Group) (a b : Wire) :
  weqb G a b = true <-> val G a = val G b.
Proof. unfold weqb. apply Z.eqb_eq. Qed.

Lemma fold_wadd_val (G : Group) (xs : list Wire) (acc : Wire) :
  val G (fold_left (wadd G) xs acc) = (acc + zsum xs) mod order G.
Proof.
  revert acc. induction xs as [| x xs IH]; intros acc; simpl.
  - rewrite Z.add_0_r. reflexivity.
  - rewrite IH. unfold wadd. rewrite Zplus_mod_idemp_l, Z.add_assoc.
    reflexivity.
Qed.

Lemma val_wsum (G : Group) (xs : list Wire) :
  val G (wsum G xs) = zsum xs mod order G.
Proof. unfold wsum. rewrite fold_wadd_val. reflexivity. Qed.

Lemma wsum_val (G : Group) (xs : list Wire) :
  xs <> [] -> wsum G xs = zsum xs mod order G.
Proof.
  intros Hne. rewrite <- val_wsum. symmetry. unfold wsum.
  destruct xs as [| x xs]; [congruence |]. clear Hne.
  revert x. induction xs as [| y ys IH] using rev_ind; intros x.
  - simpl. apply val_val.
  - change (x :: ys ++ [y]) with ((x :: ys) ++ [y]).
    rewrite fold_left_app. simpl. apply val_val.
Qed.

Lemma is_bit_binary (G : Group) (w : Wire) : binary w -> is_bit G w = true.
Proof.
  unfold is_bit. intros [-> | ->].
  - unfold weqb. rewrite Z.eqb_refl. reflexivity.
  - unfold weqb. rewrite Z.eqb_refl. apply orb_true_r.
Qed.

Lemma is_bit_true (G : Group) (w : Wire) :
  is_bit G w = true <-> val G w = 0 \/ val G w = 1.
Proof.
  unfold is_bit. rewrite orb_true_iff, !weqb_true, val_0, val_1.
  reflexivity.
Qed.

Lemma zsum_binary (ballot : list Wire) :
  Forall binary ballot -> zsum ballot = Z.of_nat (ones ballot).
Proof.
  unfold ones. induction 1 as [| w ws Hw _ IH]; simpl; [reflexivity |].
  rewrite IH. destruct Hw as [-> | ->].
  - destruct (Z.eq_dec 0 1); lia.
  - destruct (Z.eq_dec 1 1); lia.
Qed.

(** Closes [Forall binary] on a ballot written out. *)
Ltac binary_ballot :=
  repeat (apply Forall_cons; [unfold binary; auto |]); apply Forall_nil.

Lemma ones_le_length (ballot : list Wire) :
  (ones ballot <= length ballot)%nat.
Proof. apply count_occ_bound. Qed.

(** What the assertion of [assert_single_vote] on the sum means. *)
Lemma equal_holds_gen_1 (G : Group) (ballot : list Wire) :
  equal_holds G ballot [gen G 1] = true <->
  val G (wsum G ballot) = val G (gen G 1).
Proof.
  unfold equal_holds.
  destruct (Nat.eqb (length ballot) (length [gen G 1])) eqn:E.
  - apply Nat.eqb_eq in E. destruct ballot as [| b [| ? ?]];
      try discriminate.
    simpl. rewrite andb_true_r, weqb_true. unfold wsum. simpl.
    rewrite val_wadd, Z.add_0_l. reflexivity.
  - rewrite weqb_true. unfold wsum at 2. simpl.
    rewrite val_wadd, Z.add_0_l. reflexivity.
Qed.

(** ** assert_single_vote *)

Lemma assert_single_vote_asserted (G : Group) (ballot : list Wire) :
  assert_single_vote G ballot
  = (map AssertBit ballot ++ [AssertEqual ballot [gen G 1]], inr tt).
Proof.
  unfold assert_single_vote, assert_bit, assert_equal.
  rewrite for_each_emit. reflexivity.
Qed.

Lemma single_vote_run (G : Group) (ballot : list Wire) :
  Forall binary ballot ->
  run G (assert_single_vote G ballot)
  = if Z.of_nat (ones ballot) mod order G =? 1
    then Succeeds else ConstraintViolation.
Proof.
  intros Hbin. rewrite assert_single_vote_asserted. unfold run_as.
  cbn [asserted result fst snd]. rewrite first_failure_app.
  assert (Hbits : first_failure G (map AssertBit ballot) = None).
  { apply first_failure_none, Forall_map.
    eapply Forall_impl; [| exact Hbin].
    intros w Hw. simpl. rewrite is_bit_binary; auto. }
  rewrite Hbits. simpl.
  assert (Heq : equal_holds G ballot [gen G 1] = true <->
                Z.of_nat (ones ballot) mod order G = 1).
  { rewrite equal_holds_gen_1, val_wsum, zsum_binary by assumption.
    rewrite val_gen, val_1. reflexivity. }
  destruct (equal_holds G ballot [gen G 1]).
  - destruct Heq as [Heq _]. rewrite Heq by reflexivity. reflexivity.
  - destruct (Z.eqb_spec (Z.of_nat (ones ballot) mod order G) 1) as [E |];
      [| reflexivity].
    destruct Heq as [_ Heq]. discriminate (Heq E).
Qed.

(** C1, as amended: for every ballot, [assert_single_vote] registers one
    bit assertion per entry and then the assertion that the entries sum to
    [gen(1)] in the group; it succeeds on every binary ballot that holds
    exactly one 1, in every group; and on a binary ballot that is shorter
    than the order of the group it fails with a constraint violation when
    the number of ones is not one. *)
Theorem single_vote_exactly_one (G : Group) (ballot : list Wire) :
  asserted (assert_single_vote G ballot)
  = map AssertBit ballot ++ [AssertEqual ballot [gen G 1]]
  /\ (check G (AssertEqual ballot [gen G 1]) = Holds <->
      val G (wsum G ballot) = val G (gen G 1))
  /\ (Forall binary ballot -> ones ballot = 1%nat ->
      run G (assert_single_vote G ballot) = Succeeds)
  /\ (Forall binary ballot -> Z.of_nat (length ballot) < order G ->
      ones ballot <> 1%nat ->
      run G (assert_single_vote G ballot) = ConstraintViolation).
Proof.
  repeat split.
  - rewrite assert_single_vote_asserted. reflexivity.
  - simpl. intros H. apply equal_holds_gen_1.
    destruct (equal_holds G ballot [gen G 1]); congruence.
  - simpl. intros H. apply equal_holds_gen_1 in H. rewrite H. reflexivity.
  - intros Hbin H1. rewrite single_vote_run, H1 by assumption.
    change (Z.of_nat 1) with 1.
    rewrite Z.mod_small by (pose proof (order_gt_1 G); lia).
    reflexivity.
  - intros Hbin Hlen H1. rewrite single_vote_run by assumption.
    rewrite Z.mod_small by (pose proof (ones_le_length ballot); lia).
    destruct (Z.eqb_spec (Z.of_nat (ones ballot)) 1); [lia | reflexivity].
Qed.

Lemma single_vote_exactly_one_witness :
  run BN254 (assert_single_vote BN254 [0; 1; 0]) = Succeeds
  /\ run BN254 (assert_single_vote BN254 [1; 1; 0]) = ConstraintViolation.
Proof.
  split.
  - apply (proj1 (proj2 (proj2
             (single_vote_exactly_one BN254 [0; 1; 0])))).
    + binary_ballot.
    + reflexivity.
  - apply (proj2 (proj2 (proj2
             (single_vote_exactly_one BN254 [1; 1; 0])))).
    + binary_ballot.
    + reflexivity.
    + vm_compute. discriminate.
Defined.

(** C1 as stated fails: in the group of order 3 the binary ballot
    [1, 1, 1, 1] holds four ones, its sum is [gen(1)], and
    [assert_single_vote] succeeds. *)
Lemma single_vote_wraps_around :
  Forall binary [1; 1; 1; 1]
  /\ ones [1; 1; 1; 1] = 4%nat
  /\ run Z3 (assert_single_vote Z3 [1; 1; 1; 1]) = Succeeds.
Proof.
  split; [binary_ballot |].
  split; reflexivity.
Qed.

(** ** assert_multi_vote *)

Lemma assert_multi_vote_asserted (G : Group) (ballot : list Wire)
    (max_choices : option Wire) (bits : nat)
    (max_votes_per_candidate : option Wire) (totalbits : option nat) :
  assert_multi_vote G ballot max_choices bits max_votes_per_candidate
    totalbits
  = (map (fun wire =>
            AssertGt (match max_votes_per_candidate with
                      | None => gen G 1
                      | Some w => w
                      end) wire bits) ballot
     ++ match max_choices with
        | Some max_choices =>
            [AssertGt max_choices (wsum G ballot)
               (match totalbits with
                | None => length ballot
                | Some t => t
                end)]
        | None => []
        end,
     inr tt).
Proof.
  unfold assert_multi_vote, assert_gt. rewrite for_each_emit.
  destruct max_choices; cbn; rewrite ?app_nil_r; reflexivity.
Qed.

(** With the strict comparison of section 6, the default cap [gen(1)]
    admits an entry only when its value is 0. *)
Lemma check_default_cap (G : Group) (w : Wire) :
  check G (AssertGt (gen G 1) w default_bits) = Holds <-> val G w = 0.
Proof.
  simpl. unfold fits. rewrite val_gen, val_1.
  pose proof (val_range G w).
  change (2 ^ Z.of_nat default_bits) with 2.
  destruct (Z.ltb_spec (val G w) 2), (Z.ltb_spec (val G w) 1);
    split; intros; try discriminate; try reflexivity; lia.
Qed.

(** With the comparison of the docstring, the default cap [gen(1)] admits
    the entries of value 0 or 1. *)
Lemma check_default_cap_at_least (G : Group) (w : Wire) :
  check_as AtLeast G (AssertGt (gen G 1) w default_bits) = Holds
  <-> val G w = 0 \/ val G w = 1.
Proof.
  simpl. unfold fits. rewrite val_gen, val_1.
  pose proof (val_range G w).
  change (2 ^ Z.of_nat default_bits) with 2.
  destruct (Z.ltb_spec (val G w) 2), (Z.leb_spec (val G w) 1);
    split; intros; try discriminate; try reflexivity; lia.
Qed.

Lemma multi_vote_default_run (rd : reading) (G : Group)
    (ballot : list Wire) (admitted : Wire -> Prop) :
  (forall w, check_as rd G (AssertGt (gen G 1) w default_bits) = Holds
             <-> admitted w) ->
  run_as rd G (assert_multi_vote G ballot None default_bits None None)
  = Succeeds
  <-> Forall admitted ballot.
Proof.
  intros Hcap. rewrite run_succeeds, assert_multi_vote_asserted.
  cbn [asserted result fst snd]. rewrite app_nil_r, Forall_map.
  split.
  - intros [_ H]. eapply Forall_impl; [| exact H]. intros w. apply Hcap.
  - intros H. split; [eauto |]. eapply Forall_impl; [| exact H].
    intros w. apply Hcap.
Qed.

(** C2, as amended: with its default parameters [assert_multi_vote]
    registers the comparison of [gen(1)] with each entry and no total cap.
    With the strict comparison of section 6 this accepts exactly the
    ballots whose entries are all 0, and the ballot [1, 0, 1, 0] fails by
    default and with [max_choices = gen(2)], [totalbits = 4], its sum 2
    being not smaller than 2.  With the comparison of the docstring
    ("at most") it accepts exactly the ballots whose entries are 0 or 1,
    and the ballot [1, 0, 1, 0] succeeds by default and with
    [max_choices = gen(2)], and fails with [max_choices = gen(1)]. *)
Theorem multi_vote_defaults (G : Group) :
  (forall ballot,
      asserted (assert_multi_vote G ballot None default_bits None None)
      = map (fun wire => AssertGt (gen G 1) wire default_bits) ballot)
  /\ ((forall ballot,
          run G (assert_multi_vote G ballot None default_bits None None)
          = Succeeds
          <-> Forall (fun wire => val G wire = 0) ballot)
      /\ check G (AssertGt (gen G 2) (wsum G [1; 0; 1; 0]) 4) = Violated
      /\ run G (assert_multi_vote G [1; 0; 1; 0] (Some (gen G 2))
                  default_bits None (Some 4%nat))
         = ConstraintViolation)
  /\ ((forall ballot,
          run_as AtLeast G
            (assert_multi_vote G ballot None default_bits None None)
          = Succeeds
          <-> Forall (fun wire => val G wire = 0 \/ val G wire = 1) ballot)
      /\ run_as AtLeast G
           (assert_multi_vote G [1; 0; 1; 0] (Some (gen G 2)) default_bits
              None (Some 4%nat))
         = Succeeds
      /\ (2 < order G ->
          run_as AtLeast G
            (assert_multi_vote G [1; 0; 1; 0] (Some (gen G 1)) default_bits
               None (Some 4%nat))
          = ConstraintViolation)).
Proof.
  pose proof (order_gt_1 G) as Hq.
  assert (Hsum : val G (wsum G [1; 0; 1; 0]) = val G 2)
    by (rewrite val_wsum; reflexivity).
  assert (Hfit : (val G 2 <? 2 ^ Z.of_nat 4) = true).
  { apply Z.ltb_lt. unfold val.
    assert (2 mod order G <= 2) by (apply Z.mod_le; lia).
    change (2 ^ Z.of_nat 4) with 16. lia. }
  split; [| split; [split; [| split] | split; [| split]]].
  - intros ballot. rewrite assert_multi_vote_asserted.
    cbn [asserted fst]. apply app_nil_r.
  - intros ballot. apply multi_vote_default_run, check_default_cap.
  - simpl. unfold fits. rewrite Hsum, val_gen, Hfit, Z.ltb_irrefl.
    reflexivity.
  - rewrite assert_multi_vote_asserted. unfold run_as.
    cbn [asserted result fst snd map app first_failure_as check_as].
    unfold fits. rewrite val_gen, !val_1. reflexivity.
  - intros ballot.
    apply multi_vote_default_run, check_default_cap_at_least.
  - rewrite assert_multi_vote_asserted. unfold run_as.
    cbn [asserted result fst snd map app first_failure_as check_as
         exceeds].
    unfold fits. rewrite Hsum, !val_gen, Hfit, !val_1, !val_0, !Z.leb_refl.
    reflexivity.
  - intros H2.
    assert (V2 : val G 2 = 2) by (apply val_small; lia).
    rewrite assert_multi_vote_asserted. unfold run_as.
    cbn [asserted result fst snd map app first_failure_as check_as
         exceeds].
    unfold fits. rewrite Hsum, !val_gen, Hfit, !val_1, !val_0, V2.
    reflexivity.
Qed.

Lemma multi_vote_defaults_witness :
  run_as AtLeast BN254
    (assert_multi_vote BN254 [1; 0; 1; 0] (Some (gen BN254 1)) default_bits
       None (Some 4%nat))
  = ConstraintViolation.
Proof.
  apply (proj2 (proj2 (proj2 (proj2 (multi_vote_defaults BN254))))).
  reflexivity.
Defined.

(** C2 as stated fails in both readings of the comparison: read strictly,
    the ballot [1, 0, 1, 0] is rejected with the default parameters,
    because its entry 1 is not smaller than the default cap [gen(1)]; read
    as "at most", the same ballot is accepted with [max_choices = gen(2)]
    and [totalbits = 4], because its sum 2 is at most 2. *)
Lemma multi_vote_defaults_reject_a_one :
  run BN254 (assert_multi_vote BN254 [1; 0; 1; 0] None default_bits None None)
  = ConstraintViolation
  /\ check BN254 (AssertGt (gen BN254 1) 1 default_bits) = Violated
  /\ run_as AtLeast BN254
       (assert_multi_vote BN254 [1; 0; 1; 0] (Some (gen BN254 2))
          default_bits None (Some 4%nat))
     = Succeeds.
Proof. repeat split. Qed.

(** ** assert_line_vote_ballot *)

Lemma index_app_head {A} (pre : list A) (x : A) (post : list A) :
  index (pre ++ x :: post) (length pre) = ret x.
Proof.
  unfold index. rewrite nth_error_app2, Nat.sub_diag by lia. reflexivity.
Qed.

Lemma line_vote_loop (G : Group) (rest pre : list Wire) (prev up : Wire) :
  fold_m (line_vote_step G (pre ++ prev :: rest))
         (seq (length pre) (length rest)) up
  = (map AssertBit rest, inr (line_up G prev rest up)).
Proof.
  revert pre prev up.
  induction rest as [| next rest IH]; intros pre prev up; [reflexivity |].
  cbn [length seq fold_m map line_up].
  assert (Hnext : index (pre ++ prev :: next :: rest) (length pre + 1)
                  = ret next).
  { replace (pre ++ prev :: next :: rest)
      with ((pre ++ [prev]) ++ next :: rest)
      by (rewrite <- app_assoc; reflexivity).
    replace (length pre + 1)%nat with (length (pre ++ [prev]))
      by (rewrite length_app; reflexivity).
    apply index_app_head. }
  specialize (IH (pre ++ [prev]) next
                 (wadd G up (wmul G (wsub G next prev) next))).
  rewrite <- app_assoc, length_app in IH. cbn [app length] in IH.
  rewrite Nat.add_1_r in IH.
  unfold line_vote_step at 1. rewrite Hnext, index_app_head.
  cbv [bind ret assert_bit emit]. cbn [app]. rewrite IH. reflexivity.
Qed.

Lemma assert_line_vote_asserted (G : Group) (first : Wire)
    (rest : list Wire) :
  assert_line_vote_ballot G (first :: rest)
  = (AssertBit first :: map AssertBit rest
       ++ [AssertBit (line_up G first rest first)],
     inr tt).
Proof.
  pose proof (line_vote_loop G rest [] first first) as Hloop.
  cbn [app length] in Hloop.
  unfold assert_line_vote_ballot.
  change (index (first :: rest) 0) with (@ret Wire first).
  replace (length (first :: rest) - 1)%nat with (length rest)
    by (cbn [length]; lia).
  cbv [bind ret assert_bit emit]. cbn [app]. rewrite Hloop. reflexivity.
Qed.

Lemma up_step_mod (q up next prev R : Z) :
  0 < q ->
  ((up + ((next - prev) mod q * next) mod q) mod q + R) mod q
  = (up + ((next - prev) * next + R)) mod q.
Proof.
  intros Hq.
  rewrite (Z.mod_eq (next - prev) q) by lia.
  rewrite (Z.mod_eq (_ * next) q) by lia.
  rewrite (Z.mod_eq (up + _) q) by lia.
  match goal with
  | |- (?a - q * ?k + R) mod q = ?rhs mod q =>
      match a with
      | up + (?t - q * ?k2) =>
          match t with
          | (_ - q * ?k1) * next =>
              replace (a - q * k + R)
                with (up + ((next - prev) * next + R)
                      + (- k1 * next - k2 - k) * q) by ring
          end
      end
  end.
  apply Z_mod_plus_full.
Qed.

Lemma val_line_up (G : Group) (rest : list Wire) (prev up : Wire) :
  val G (line_up G prev rest up) = (up + rises prev rest) mod order G.
Proof.
  revert prev up. induction rest as [| next rest IH]; intros prev up.
  - simpl. rewrite Z.add_0_r. reflexivity.
  - cbn [line_up rises]. rewrite IH. unfold wadd, wmul, wsub.
    apply up_step_mod, order_pos.
Qed.

Lemma rises_bounds (rest : list Z) (prev : Z) :
  binary prev -> Forall binary rest ->
  0 <= rises prev rest <= Z.of_nat (length rest).
Proof.
  intros Hp Hr. revert prev Hp.
  induction Hr as [| next rest Hn _ IH]; intros prev Hp;
    cbn [rises length]; [lia |].
  specialize (IH next Hn).
  destruct Hp as [-> | ->], Hn as [-> | ->]; lia.
Qed.

Lemma runs_bounds (ballot : list Z) :
  Forall binary ballot -> 0 <= runs ballot <= Z.of_nat (length ballot).
Proof.
  destruct 1 as [| first rest Hf Hr]; cbn [runs length]; [lia |].
  pose proof (rises_bounds rest first Hf Hr). destruct Hf as [-> | ->]; lia.
Qed.

Lemma rises_zeros (prev : Z) (c : nat) : rises prev (repeat 0 c) = 0.
Proof.
  revert prev. induction c as [| c IH]; intros prev; simpl; [reflexivity |].
  rewrite IH. lia.
Qed.

Lemma rises_ones (b : nat) (rest : list Z) :
  rises 1 (repeat 1 b ++ rest) = rises 1 rest.
Proof. induction b as [| b IH]; simpl; [reflexivity | rewrite IH; lia]. Qed.

Lemma rises_after_zeros (a : nat) (rest : list Z) :
  rises 0 (repeat 0 a ++ rest) = rises 0 rest.
Proof. induction a as [| a IH]; simpl; [reflexivity | rewrite IH; lia]. Qed.

Lemma rises_ones_zeros (prev : Z) (b c : nat) :
  binary prev -> 0 <= rises prev (repeat 1 b ++ repeat 0 c) <= 1 - prev.
Proof.
  intros Hp. destruct b as [| b].
  - cbn [repeat app]. rewrite rises_zeros. destruct Hp as [-> | ->]; lia.
  - cbn [repeat app rises]. rewrite rises_ones, rises_zeros.
    destruct Hp as [-> | ->]; lia.
Qed.

Lemma single_run_runs (ballot : list Z) :
  single_run ballot -> runs ballot <= 1.
Proof.
  intros (a & b & c & ->). destruct a as [| a].
  - destruct b as [| b].
    + destruct c as [| c]; simpl; [lia |]. rewrite rises_zeros. lia.
    + cbn [repeat app runs]. rewrite rises_ones, rises_zeros. lia.
  - cbn [repeat app runs]. rewrite rises_after_zeros.
    pose proof (rises_ones_zeros 0 b c (or_introl eq_refl)). lia.
Qed.

Lemma no_rise_after_zero (rest : list Z) :
  Forall binary rest -> rises 0 rest = 0 ->
  rest = repeat 0 (length rest).
Proof.
  induction 1 as [| next rest Hn Hr IH]; cbn [rises length repeat];
    [reflexivity |].
  pose proof (rises_bounds rest next Hn Hr).
  destruct Hn as [-> | ->]; intros H0; [| lia].
  f_equal. apply IH. lia.
Qed.

Lemma no_rise_after_one (rest : list Z) :
  Forall binary rest -> rises 1 rest = 0 ->
  exists b c, rest = repeat 1 b ++ repeat 0 c.
Proof.
  induction 1 as [| next rest Hn Hr IH]; cbn [rises].
  - exists 0%nat, 0%nat. reflexivity.
  - pose proof (rises_bounds rest next Hn Hr).
    destruct Hn as [-> | ->]; intros H0.
    + exists 0%nat, (S (length rest)). cbn [repeat app]. f_equal.
      apply no_rise_after_zero; [assumption | lia].
    + destruct IH as (b & c & ->); [lia |].
      exists (S b), c. reflexivity.
Qed.

Lemma one_rise_after_zero (rest : list Z) :
  Forall binary rest -> rises 0 rest <= 1 ->
  exists a b c, rest = repeat 0 a ++ repeat 1 b ++ repeat 0 c.
Proof.
  induction 1 as [| next rest Hn Hr IH]; cbn [rises].
  - exists 0%nat, 0%nat, 0%nat. reflexivity.
  - pose proof (rises_bounds rest next Hn Hr).
    destruct Hn as [-> | ->]; intros H1.
    + destruct IH as (a & b & c & ->); [lia |].
      exists (S a), b, c. reflexivity.
    + destruct (no_rise_after_one rest Hr) as (b & c & ->); [lia |].
      exists 0%nat, (S b), c. reflexivity.
Qed.

Lemma runs_single_run (ballot : list Z) :
  Forall binary ballot -> runs ballot <= 1 -> single_run ballot.
Proof.
  destruct 1 as [| first rest Hf Hr]; cbn [runs]; intros H1.
  - exists 0%nat, 0%nat, 0%nat. reflexivity.
  - pose proof (rises_bounds rest first Hf Hr).
    destruct Hf as [-> | ->].
    + destruct (one_rise_after_zero rest Hr) as (a & b & c & ->); [lia |].
      exists (S a), b, c. reflexivity.
    + destruct (no_rise_after_one rest Hr) as (b & c & ->); [lia |].
      exists 0%nat, (S b), c. reflexivity.
Qed.

(** The outcome on a binary ballot that is not empty, in any group. *)
Lemma line_vote_run (G : Group) (ballot : list Wire) :
  ballot <> [] -> Forall binary ballot ->
  run G (assert_line_vote_ballot G ballot)
  = if (runs ballot mod order G =? 0) || (runs ballot mod order G =? 1)
    then Succeeds else ConstraintViolation.
Proof.
  intros Hne Hbin. destruct ballot as [| first rest]; [congruence |].
  rewrite assert_line_vote_asserted. unfold run_as.
  cbn [asserted result fst snd].
  change (AssertBit first :: map AssertBit rest ++ ?l)
    with (map AssertBit (first :: rest) ++ l).
  rewrite first_failure_app.
  assert (Hbits : first_failure G (map AssertBit (first :: rest)) = None).
  { apply first_failure_none, Forall_map.
    eapply Forall_impl; [| exact Hbin].
    intros w Hw. simpl. rewrite is_bit_binary; auto. }
  rewrite Hbits. cbn [first_failure_as check_as].
  unfold is_bit, weqb. rewrite val_line_up, val_0, val_1.
  cbn [runs].
  destruct ((first + rises first rest) mod order G =? 0);
    destruct ((first + rises first rest) mod order G =? 1); reflexivity.
Qed.

(** C4, as amended: on a binary ballot that is not empty,
    [assert_line_vote_ballot] succeeds whenever the ones form at most one
    contiguous run, and, when the ballot is shorter than the order of the
    group, it succeeds exactly then and otherwise fails with a constraint
    violation; it succeeds on [1, 1, 1, 0, 0] and on [0, 0, 0, 0, 0] and, in
    a group of order larger than 2, fails on [1, 0, 1, 0, 0]. *)
Theorem line_vote_contiguous (G : Group) :
  (forall ballot : list Wire,
      ballot <> [] -> Forall binary ballot ->
      (single_run ballot ->
       run G (assert_line_vote_ballot G ballot) = Succeeds)
      /\ (Z.of_nat (length ballot) < order G ->
          (run G (assert_line_vote_ballot G ballot) = Succeeds
           <-> single_run ballot)
          /\ (~ single_run ballot ->
              run G (assert_line_vote_ballot G ballot)
              = ConstraintViolation)))
  /\ run G (assert_line_vote_ballot G [1; 1; 1; 0; 0]) = Succeeds
  /\ run G (assert_line_vote_ballot G [0; 0; 0; 0; 0]) = Succeeds
  /\ (2 < order G ->
      run G (assert_line_vote_ballot G [1; 0; 1; 0; 0])
      = ConstraintViolation).
Proof.
  pose proof (order_gt_1 G) as Hq.
  assert (Hone : forall ballot : list Wire,
             ballot <> [] -> Forall binary ballot -> runs ballot <= 1 ->
             run G (assert_line_vote_ballot G ballot) = Succeeds).
  { intros ballot Hne Hbin H1. rewrite line_vote_run by assumption.
    pose proof (runs_bounds ballot Hbin).
    rewrite Z.mod_small by lia.
    destruct (Z.eqb_spec (runs ballot) 0), (Z.eqb_spec (runs ballot) 1);
      try reflexivity; lia. }
  split; [| split; [| split]].
  - intros ballot Hne Hbin. split.
    + intros Hrun. apply Hone; auto using single_run_runs.
    + intros Hlen. pose proof (runs_bounds ballot Hbin).
      assert (Hmany : ~ single_run ballot ->
                run G (assert_line_vote_ballot G ballot)
                = ConstraintViolation).
      { intros Hno. rewrite line_vote_run by assumption.
        rewrite Z.mod_small by lia.
        destruct (Z.eqb_spec (runs ballot) 0), (Z.eqb_spec (runs ballot) 1);
          try reflexivity; exfalso; apply Hno, runs_single_run; auto; lia. }
      split; [| exact Hmany]. split.
      * intros Hok. destruct (Z_le_gt_dec (runs ballot) 1) as [H1 | H1].
        -- apply runs_single_run; assumption.
        -- rewrite Hmany in Hok; [discriminate |].
           intros Hrun. apply single_run_runs in Hrun. lia.
      * intros Hrun. apply Hone; auto using single_run_runs.
  - apply Hone; [discriminate | binary_ballot | vm_compute; discriminate].
  - apply Hone; [discriminate | binary_ballot | vm_compute; discriminate].
  - intros H2. rewrite line_vote_run; [| discriminate | binary_ballot].
    change (runs [1; 0; 1; 0; 0]) with 2. rewrite Z.mod_small by lia.
    reflexivity.
Qed.

Lemma line_vote_contiguous_witness :
  run BN254 (assert_line_vote_ballot BN254 [0; 1; 1; 0]) = Succeeds
  /\ run BN254 (assert_line_vote_ballot BN254 [1; 0; 1; 0; 0])
     = ConstraintViolation.
Proof.
  split.
  - refine (proj1 (proj1 (line_vote_contiguous BN254) [0; 1; 1; 0] _ _) _).
    + discriminate.
    + binary_ballot.
    + exists 1%nat, 2%nat, 1%nat. reflexivity.
  - apply (proj2 (proj2 (proj2 (line_vote_contiguous BN254)))).
    reflexivity.
Defined.

(** C4 as stated fails: in the group of order 3 the binary ballot
    [1, 0, 1, 0, 1] has three separate runs of ones, and
    [assert_line_vote_ballot] succeeds on it. *)
Lemma line_vote_wraps_around :
  Forall binary [1; 0; 1; 0; 1]
  /\ ~ single_run [1; 0; 1; 0; 1]
  /\ run Z3 (assert_line_vote_ballot Z3 [1; 0; 1; 0; 1]) = Succeeds.
Proof.
  split; [binary_ballot |]. split; [| reflexivity].
  intros Hrun. apply single_run_runs in Hrun. vm_compute in Hrun.
  apply Hrun. reflexivity.
Qed.

(** C10: on the empty ballot [assert_line_vote_ballot] stops with an index
    error at [ballot[0]], with no assertion registered, so the run is
    neither a success nor a constraint violation; on every other ballot
    it returns. *)
Theorem line_vote_empty_ballot (G : Group) :
  assert_line_vote_ballot G [] = ([], inl IndexError)
  /\ run G (assert_line_vote_ballot G []) = Raises IndexError
  /\ (forall ballot : list Wire,
         ballot <> [] ->
         result (assert_line_vote_ballot G ballot) = inr tt).
Proof.
  split; [reflexivity |]. split; [reflexivity |].
  intros [| first rest] Hne; [congruence |].
  rewrite assert_line_vote_asserted. reflexivity.
Qed.

Lemma line_vote_empty_ballot_witness :
  result (assert_line_vote_ballot BN254 [0; 1]) = inr tt.
Proof.
  apply (proj2 (proj2 (line_vote_empty_ballot BN254)) [0; 1]).
  discriminate.
Defined.

(** ** get_n_occurences and assert_pointlist_borda_ballot *)

Lemma gen_0 (G : Group) : gen G 0 = 0.
Proof. apply Z.mod_0_l. pose proof (order_pos G). lia. Qed.

Lemma get_n_occurences_sum (G : Group) (wires : list Wire) (wire : Wire) :
  get_n_occurences G wires wire
  = wsum G (map (fun wire_in_list => eq_gate G wire_in_list wire) wires).
Proof.
  unfold get_n_occurences, wsum. rewrite gen_0. generalize 0.
  induction wires as [| w ws IH]; intros acc; simpl; [reflexivity |].
  apply IH.
Qed.

Lemma zsum_indicators (G : Group) (wires : list Wire) (wire : Wire) :
  zsum (map (fun wire_in_list => eq_gate G wire_in_list wire) wires)
  = Z.of_nat (occurrences G wires wire).
Proof.
  unfold occurrences, eq_gate.
  induction wires as [| w ws IH]; [reflexivity |].
  cbn [map zsum fold_right filter]. fold (zsum (map
    (fun wire_in_list => if weqb G wire_in_list wire then 1 else 0) ws)).
  rewrite IH. destruct (weqb G w wire); cbn [length]; lia.
Qed.

Lemma val_get_n_occurences (G : Group) (wires : list Wire) (wire : Wire) :
  val G (get_n_occurences G wires wire)
  = Z.of_nat (occurrences G wires wire) mod order G.
Proof.
  rewrite get_n_occurences_sum, val_wsum, zsum_indicators. reflexivity.
Qed.

Lemma occurrences_le_length (G : Group) (wires : list Wire) (wire : Wire) :
  (occurrences G wires wire <= length wires)%nat.
Proof. apply filter_length_le. Qed.

Lemma check_equal_singletons (G : Group) (a b : Wire) :
  check G (AssertEqual [a] [b]) = Holds <-> val G a = val G b.
Proof.
  simpl. unfold equal_holds. simpl. rewrite andb_true_r, <- weqb_true.
  destruct (weqb G a b); split; congruence.
Qed.

Lemma assert_pointlist_borda_asserted (G : Group)
    (ballot ordered_points : list Wire) :
  assert_pointlist_borda_ballot G ballot ordered_points
  = (AssertEqual
       [gen G (Z.of_nat (length ballot) - Z.of_nat (length ordered_points))]
       [get_n_occurences G ballot (gen G 0)]
     :: map (fun point =>
               AssertEqual [get_n_occurences G ballot point] [gen G 1])
            ordered_points,
     inr tt).
Proof.
  unfold assert_pointlist_borda_ballot, assert_equal.
  rewrite bind_emit, for_each_emit. reflexivity.
Qed.

(** C9, as amended: [assert_pointlist_borda_ballot] registers the
    assertion that the count of the entries equal to [gen(0)] equals
    [gen(len(ballot) - len(ordered_points))], and for each value of
    [ordered_points] the assertion that its count equals [gen(1)]; each
    count is the sum, in the group, of the equality indicators of
    [get_n_occurences]; the gate succeeds exactly when these equalities
    hold in the group, which, for a ballot shorter than the order of the
    group and at least as long as [ordered_points], says that
    [len(ballot) - len(ordered_points)] entries are zero and that each
    value of [ordered_points] occurs exactly once. *)
Theorem pointlist_borda_counts (G : Group) (ballot ordered_points : list Wire) :
  asserted (assert_pointlist_borda_ballot G ballot ordered_points)
  = AssertEqual
      [gen G (Z.of_nat (length ballot) - Z.of_nat (length ordered_points))]
      [get_n_occurences G ballot (gen G 0)]
    :: map (fun point =>
              AssertEqual [get_n_occurences G ballot point] [gen G 1])
           ordered_points
  /\ (forall wire,
         get_n_occurences G ballot wire
         = wsum G (map (fun wire_in_list => eq_gate G wire_in_list wire)
                       ballot))
  /\ (run G (assert_pointlist_borda_ballot G ballot ordered_points)
      = Succeeds
      <-> val G (get_n_occurences G ballot (gen G 0))
          = val G (gen G (Z.of_nat (length ballot)
                          - Z.of_nat (length ordered_points)))
          /\ Forall (fun point =>
                       val G (get_n_occurences G ballot point)
                       = val G (gen G 1))
                    ordered_points)
  /\ ((length ordered_points <= length ballot)%nat ->
      Z.of_nat (length ballot) < order G ->
      (run G (assert_pointlist_borda_ballot G ballot ordered_points)
       = Succeeds
       <-> occurrences G ballot 0
           = (length ballot - length ordered_points)%nat
           /\ Forall (fun point => occurrences G ballot point = 1%nat)
                     ordered_points)).
Proof.
  assert (Hrun :
    run G (assert_pointlist_borda_ballot G ballot ordered_points) = Succeeds
    <-> val G (get_n_occurences G ballot (gen G 0))
        = val G (gen G (Z.of_nat (length ballot)
                        - Z.of_nat (length ordered_points)))
        /\ Forall (fun point =>
                     val G (get_n_occurences G ballot point)
                     = val G (gen G 1))
                  ordered_points).
  { rewrite run_succeeds, assert_pointlist_borda_asserted.
    cbn [asserted result fst snd]. rewrite Forall_cons_iff, Forall_map.
    rewrite check_equal_singletons.
    split.
    - intros (_ & Hz & Hp). split; [auto |].
      eapply Forall_impl; [| exact Hp].
      intros p. apply check_equal_singletons.
    - intros (Hz & Hp). split; [eauto |]. split; [auto |].
      eapply Forall_impl; [| exact Hp].
      intros p. apply check_equal_singletons. }
  split; [| split; [| split]].
  - rewrite assert_pointlist_borda_asserted. reflexivity.
  - intros wire. apply get_n_occurences_sum.
  - exact Hrun.
  - intros Hle Hlen. rewrite Hrun.
    assert (Hocc : forall wire,
               val G (get_n_occurences G ballot wire)
               = Z.of_nat (occurrences G ballot wire)).
    { intros wire. rewrite val_get_n_occurences. apply Z.mod_small.
      pose proof (occurrences_le_length G ballot wire). lia. }
    assert (H0 : occurrences G ballot (gen G 0) = occurrences G ballot 0)
      by (rewrite gen_0; reflexivity).
    rewrite (Hocc (gen G 0)), H0, (val_gen G (_ - _)).
    rewrite (val_small G (_ - _)) by lia.
    split; intros [Hz Hp]; (split; [lia |]);
      (eapply Forall_impl; [| exact Hp]); intros p; cbv beta;
      rewrite Hocc, ?val_gen, ?val_1; lia.
Qed.

Lemma pointlist_borda_counts_witness :
  run BN254 (assert_pointlist_borda_ballot BN254 [2; 0; 3; 1] [3; 2; 1])
  = Succeeds
  <-> occurrences BN254 [2; 0; 3; 1] 0 = (4 - 3)%nat
      /\ Forall (fun point => occurrences BN254 [2; 0; 3; 1] point = 1%nat)
                [3; 2; 1].
Proof.
  apply (proj2 (proj2 (proj2
    (pointlist_borda_counts BN254 [2; 0; 3; 1] [3; 2; 1])))).
  - simpl. lia.
  - reflexivity.
Defined.

(** C9 as stated fails: the counts are taken modulo the order of the
    group.  In the group of order 3 the ballot [1, 1, 1, 1] against the
    points [1] holds the point four times and no zero, where three zeros
    and one occurrence are expected; the count of the point is 4 = 1, the
    expected number of zeros is 3 = 0, and the gate succeeds. *)
Lemma pointlist_borda_wraps_around :
  (length [1] <= length [1; 1; 1; 1])%nat
  /\ occurrences Z3 [1; 1; 1; 1] 1 = 4%nat
  /\ occurrences Z3 [1; 1; 1; 1] 0 = 0%nat
  /\ get_n_occurences Z3 [1; 1; 1; 1] 1 = gen Z3 1
  /\ get_n_occurences Z3 [1; 1; 1; 1] (gen Z3 0) = gen Z3 (4 - 1)
  /\ run Z3 (assert_pointlist_borda_ballot Z3 [1; 1; 1; 1] [1]) = Succeeds.
Proof.
  split; [cbn [length]; lia |]. repeat split.
Qed.

(** ** Exponential ElGamal *)

Lemma fold_to_bits (G : Group) (n : nat) (v acc : Z) :
  fold_left (fun acc b => 2 * acc + val G b) (to_bits n v) acc
  = acc * 2 ^ Z.of_nat n + v mod 2 ^ Z.of_nat n.
Proof.
  revert acc. induction n as [| n IH]; intros acc.
  - simpl. rewrite Z.mod_1_r. lia.
  - cbn [to_bits fold_left]. rewrite IH.
    assert (Hbit : val G ((v / 2 ^ Z.of_nat n) mod 2)
                   = (v / 2 ^ Z.of_nat n) mod 2).
    { apply val_small. pose proof (order_gt_1 G).
      pose proof (Z.mod_pos_bound (v / 2 ^ Z.of_nat n) 2). lia. }
    rewrite Hbit, Nat2Z.inj_succ, Z.pow_succ_r by lia.
    rewrite (Z.mul_comm 2 (2 ^ Z.of_nat n)).
    rewrite Z.rem_mul_r by lia. ring.
Qed.

(** The bits of a number that fits spell that number. *)
Lemma bits_value_to_bits (G : Group) (n : nat) (v : Z) :
  0 <= v < 2 ^ Z.of_nat n -> bits_value G (to_bits n v) = v.
Proof.
  intros Hv. unfold bits_value. rewrite fold_to_bits, Z.mod_small by lia.
  lia.
Qed.

Lemma fits_capacity (G : Group) (w : Wire) : fits G w (bit_capacity G) = true.
Proof.
  unfold fits. apply Z.ltb_lt.
  pose proof (val_range G w). pose proof (order_fits G). lia.
Qed.

Lemma split_capacity (G : Group) (w : Wire) :
  split G w None = ret (to_bits (bit_capacity G) (val G w))
  /\ split G w (Some (bit_capacity G))
     = ret (to_bits (bit_capacity G) (val G w)).
Proof. unfold split. rewrite fits_capacity. auto. Qed.

Lemma bits_value_split (G : Group) (w : Wire) :
  bits_value G (to_bits (bit_capacity G) (val G w)) = val G w.
Proof.
  apply bits_value_to_bits.
  pose proof (val_range G w). pose proof (order_fits G). lia.
Qed.

(** C8: [exponential_elgamal_over_montgomery_curve] returns the pair of
    the exponentiation of [g] by [r] and of the sum of the exponentiations
    of [g] by [x] and of [pk] by [r], three exponentiations and one
    addition of the curve, and registers no assertion. *)
Theorem elgamal_scalar_ciphertext (E : Montgomery) (G : Group) (A B : Wire)
    (g pk : HomogeneousPoint E) (x r : Wire) :
  result (exponential_elgamal_over_montgomery_curve E G A B g pk x r)
  = inr (exponent_homogeneous_point E G A B g r,
         add_homogeneous_points E G A B
           (exponent_homogeneous_point E G A B g x)
           (exponent_homogeneous_point E G A B pk r))
  /\ asserted (exponential_elgamal_over_montgomery_curve E G A B g pk x r)
     = []
  /\ run G (exponential_elgamal_over_montgomery_curve E G A B g pk x r)
     = Succeeds.
Proof.
  unfold exponential_elgamal_over_montgomery_curve.
  split; [| split]; reflexivity.
Qed.

(** C3: when both exponentiations are the scalar multiplication of the
    curve, [r_bits] is the decomposition of [r] that [split] returns, and
    [n_max_bits_x] is the bit capacity of the group (given, or left to its
    default), the variant with bit randomness returns the ciphertext of
    [exponential_elgamal_over_montgomery_curve]. *)
Theorem elgamal_bit_randomness_agrees (E : Montgomery)
    (smul : Group -> Wire -> Wire -> HomogeneousPoint E -> Z ->
            HomogeneousPoint E)
    (G : Group) (A B : Wire) (g pk : HomogeneousPoint E) (x r : Wire)
    (r_bits : list Wire) :
  scalar_multiplication E smul ->
  split G r None = ret r_bits ->
  exponential_elgamal_over_montgomery_curve_bit_randomness
    E G A B g pk x r_bits (Some (bit_capacity G))
  = exponential_elgamal_over_montgomery_curve E G A B g pk x r
  /\ exponential_elgamal_over_montgomery_curve_bit_randomness
       E G A B g pk x r_bits None
     = exponential_elgamal_over_montgomery_curve E G A B g pk x r.
Proof.
  intros [Hexp Hbits] Hr.
  destruct (split_capacity G r) as [Hr' _]. rewrite Hr' in Hr.
  assert (Er : r_bits = to_bits (bit_capacity G) (val G r)).
  { unfold ret in Hr. congruence. }
  destruct (split_capacity G x) as [Hx Hx'].
  unfold exponential_elgamal_over_montgomery_curve_bit_randomness,
    exponential_elgamal_over_montgomery_curve.
  rewrite Hx, Hx', !bind_ret_l, !Hexp, !Hbits, Er, !bits_value_split.
  auto.
Qed.

Lemma elgamal_bit_randomness_agrees_witness :
  exponential_elgamal_over_montgomery_curve_bit_randomness
    toy_curve Z3 0 1 5 7 2 [0; 1] (Some (bit_capacity Z3))
  = exponential_elgamal_over_montgomery_curve toy_curve Z3 0 1 5 7 2 1
  /\ exponential_elgamal_over_montgomery_curve_bit_randomness
       toy_curve Z3 0 1 5 7 2 [0; 1] None
     = exponential_elgamal_over_montgomery_curve toy_curve Z3 0 1 5 7 2 1.
Proof.
  apply (elgamal_bit_randomness_agrees toy_curve
           (fun G _ _ P n => n * P) Z3 0 1 5 7 2 1 [0; 1]).
  - split; intros; reflexivity.
  - reflexivity.
Defined.

(** ** assert_condorcet_ballot *)

Lemma in_product3 (n i j k : nat) :
  In (i, j, k) (product3 n) <-> (i < n /\ j < n /\ k < n)%nat.
Proof.
  unfold product3. rewrite in_flat_map. split.
  - intros (i' & Hi & H). apply in_flat_map in H.
    destruct H as (j' & Hj & H). apply in_map_iff in H.
    destruct H as (k' & E & Hk). inversion E; subst.
    apply in_seq in Hi, Hj, Hk. lia.
  - intros (Hi & Hj & Hk). exists i. split; [apply in_seq; lia |].
    apply in_flat_map. exists j. split; [apply in_seq; lia |].
    apply in_map_iff. exists k. split; [reflexivity | apply in_seq; lia].
Qed.

Lemma index2_square (n : nat) (ballot : list (list Wire)) (i j : nat) :
  square n ballot -> (i < n)%nat -> (j < n)%nat ->
  index2 ballot i j = ret (entry ballot i j).
Proof.
  intros [Hlen Hrows] Hi Hj. unfold index2, index, entry.
  rewrite (nth_error_nth' ballot [] (n := i)) by lia.
  rewrite bind_ret_l.
  assert (Hrow : length (nth i ballot []) = n).
  { rewrite Forall_forall in Hrows. apply Hrows, nth_In. lia. }
  rewrite (nth_error_nth' _ 0 (n := j)) by lia. reflexivity.
Qed.

Lemma condorcet_triple_square (G : Group) (n : nat)
    (ballot : list (list Wire)) (ijk : nat * nat * nat) :
  square n ballot -> In ijk (product3 n) ->
  condorcet_triple G ballot ijk = (triple_constraints G ballot ijk, inr tt).
Proof.
  intros Hsq Hin. destruct ijk as [[i j] k].
  apply in_product3 in Hin. destruct Hin as (Hi & Hj & Hk).
  unfold condorcet_triple, triple_constraints.
  destruct (Nat.eqb i j || Nat.eqb i k || Nat.eqb j k); [reflexivity |].
  rewrite !(index2_square n) by assumption.
  rewrite !bind_ret_l. unfold assert_bit, assert_equal.
  rewrite bind_emit. reflexivity.
Qed.

Lemma condorcet_row_asserted (i : nat) (row : list Wire) :
  condorcet_row i row = (map AssertBit (others i row), inr tt).
Proof.
  unfold condorcet_row, others. generalize (enumerate row) as l.
  induction l as [| [j e] l IH]; [reflexivity |].
  cbn [for_each filter fst snd]. rewrite (Nat.eqb_sym j i).
  destruct (Nat.eqb i j); cbn [negb].
  - rewrite bind_ret_l. exact IH.
  - change (assert_bit e) with (emit (AssertBit e)).
    rewrite bind_emit. cbv beta. rewrite IH. reflexivity.
Qed.

(** The assertions of [assert_condorcet_ballot] on a square matrix. *)
Lemma condorcet_square (G : Group) (n : nat) (ballot : list (list Wire)) :
  square n ballot ->
  assert_condorcet_ballot G ballot
  = (flat_map (fun ir => map AssertBit (others (fst ir) (snd ir)))
              (enumerate ballot)
     ++ flat_map (triple_constraints G ballot) (product3 n),
     inr tt).
Proof.
  intros Hsq. unfold assert_condorcet_ballot.
  destruct (for_each_ok (enumerate ballot)
              (fun ir => condorcet_row (fst ir) (snd ir))) as [Ha1 Hr1].
  { intros ir _. rewrite condorcet_row_asserted. reflexivity. }
  destruct (for_each_ok (product3 n) (condorcet_triple G ballot))
    as [Ha2 Hr2].
  { intros ijk Hin. rewrite (condorcet_triple_square G n); auto. }
  destruct Hsq as [Hlen Hrows]. rewrite Hlen.
  destruct (for_each (enumerate ballot) _) as [cs1 r1].
  destruct (for_each (product3 n) _) as [cs2 r2].
  cbn [asserted result fst snd] in *. subst. cbn [bind]. f_equal. f_equal.
  - apply flat_map_ext. intros ir. rewrite condorcet_row_asserted.
    reflexivity.
  - assert (Hs : square (length ballot) ballot) by (split; auto).
    clear -Hs. generalize (fun ijk => condorcet_triple_square
                                        G (length ballot) ballot ijk Hs).
    generalize (product3 (length ballot)) as l.
    induction l as [| t l IH]; intros H; [reflexivity |].
    cbn [flat_map]. rewrite (H t) by (left; reflexivity).
    cbn [asserted fst]. f_equal. apply IH. intros t' Ht'. apply H.
    right. exact Ht'.
Qed.

Lemma mod_small_eq (a b q : Z) : a = b -> 0 <= b < q -> a mod q = b.
Proof. intros ->. apply Z.mod_small. Qed.

Ltac bit_arith G :=
  pose proof (order_gt_1 G);
  unfold gen, wadd, wsub, wmul; apply mod_small_eq; [reflexivity | lia].

Lemma gen_1 (G : Group) : gen G 1 = 1. Proof. bit_arith G. Qed.
Lemma wadd_0_0 (G : Group) : wadd G 0 0 = 0. Proof. bit_arith G. Qed.
Lemma wadd_0_1 (G : Group) : wadd G 0 1 = 1. Proof. bit_arith G. Qed.
Lemma wadd_1_0 (G : Group) : wadd G 1 0 = 1. Proof. bit_arith G. Qed.
Lemma wsub_1_0 (G : Group) : wsub G 1 0 = 1. Proof. bit_arith G. Qed.
Lemma wsub_1_1 (G : Group) : wsub G 1 1 = 0. Proof. bit_arith G. Qed.
Lemma wmul_0_0 (G : Group) : wmul G 0 0 = 0. Proof. bit_arith G. Qed.
Lemma wmul_0_1 (G : Group) : wmul G 0 1 = 0. Proof. bit_arith G. Qed.
Lemma wmul_1_0 (G : Group) : wmul G 1 0 = 0. Proof. bit_arith G. Qed.
Lemma wmul_1_1 (G : Group) : wmul G 1 1 = 1. Proof. bit_arith G. Qed.

Create Rewrite HintDb bits.
#[local] Hint Rewrite gen_0 gen_1 wadd_0_0 wadd_0_1 wadd_1_0 wsub_1_0
  wsub_1_1 wmul_0_0 wmul_0_1 wmul_1_0 wmul_1_1 : bits.

Lemma in_enumerate {A} (xs : list A) (i : nat) (x : A) :
  In (i, x) (enumerate xs) <-> nth_error xs i = Some x.
Proof.
  unfold enumerate.
  assert (H : forall s, In (i, x) (combine (seq s (length xs)) xs)
                        <-> (s <= i)%nat /\ nth_error xs (i - s) = Some x).
  { induction xs as [| y ys IH]; intros s; cbn [length seq combine In].
    - split; [tauto |]. intros [_ H]. destruct (i - s)%nat; discriminate.
    - rewrite IH. split.
      + intros [E | [Hle Hn]].
        * inversion E; subst. rewrite Nat.sub_diag. auto.
        * split; [lia |]. replace (i - s)%nat with (S (i - S s)) by lia.
          exact Hn.
      + intros [Hle Hn]. destruct (Nat.eq_dec s i) as [-> | Hne].
        * rewrite Nat.sub_diag in Hn. inversion Hn. auto.
        * right. split; [lia |].
          replace (i - s)%nat with (S (i - S s)) in Hn by lia. exact Hn. }
  rewrite H, Nat.sub_0_r. split; [tauto | intros; split; [lia | auto]].
Qed.

Lemma in_others {A} (i : nat) (xs : list A) (x : A) :
  In x (others i xs) <-> exists j, j <> i /\ nth_error xs j = Some x.
Proof.
  unfold others. rewrite in_map_iff. split.
  - intros ([j y] & E & Hin). cbn in E. subst y.
    apply filter_In in Hin. destruct Hin as [Hin Hne]. cbn in Hne.
    exists j. split.
    + intros ->. rewrite Nat.eqb_refl in Hne. discriminate.
    + apply in_enumerate. exact Hin.
  - intros (j & Hne & Hn). exists (j, x). split; [reflexivity |].
    apply filter_In. split; [apply in_enumerate; exact Hn |].
    cbn. apply Nat.eqb_neq in Hne. rewrite Hne. reflexivity.
Qed.

(** On a square matrix of three or more candidates the pair assertion is
    registered for every pair of distinct candidates. *)
Lemma condorcet_pair_asserted (G : Group) (n : nat)
    (ballot : list (list Wire)) (i j : nat) :
  square n ballot -> (3 <= n)%nat -> (i < n)%nat -> (j < n)%nat -> i <> j ->
  In (AssertBit (wsum G [entry ballot i j; entry ballot j i]))
     (asserted (assert_condorcet_ballot G ballot)).
Proof.
  intros Hsq Hn Hi Hj Hij.
  assert (Hk : exists k, (k < n)%nat /\ k <> i /\ k <> j).
  { destruct (Nat.eq_dec i 0), (Nat.eq_dec j 0), (Nat.eq_dec i 1),
      (Nat.eq_dec j 1);
      first [exists 0%nat; lia | exists 1%nat; lia | exists 2%nat; lia]. }
  destruct Hk as (k & Hk & Hki & Hkj).
  rewrite (condorcet_square G n) by assumption. cbn [asserted fst].
  apply in_or_app. right. apply in_flat_map.
  exists (i, j, k). split; [apply in_product3; auto |].
  unfold triple_constraints.
  apply Nat.eqb_neq in Hij. rewrite Hij.
  assert (Hik : Nat.eqb i k = false) by (apply Nat.eqb_neq; auto).
  assert (Hjk : Nat.eqb j k = false) by (apply Nat.eqb_neq; auto).
  rewrite Hik, Hjk. left. reflexivity.
Qed.

(** C6 fails on a matrix of two candidates: there no triple of distinct
    candidates exists, so only the two bit assertions on the entries off the
    diagonal are registered, and the matrix in which each candidate is
    preferred to the other is accepted although the sum of the two entries
    is not binary. *)
Theorem condorcet_two_candidates (G : Group) (a b c d : Wire) :
  assert_condorcet_ballot G [[a; b]; [c; d]]
  = ([AssertBit b; AssertBit c], inr tt)
  /\ run BN254 (assert_condorcet_ballot BN254 [[0; 1]; [1; 0]]) = Succeeds
  /\ check BN254 (AssertBit (wsum BN254 [1; 1])) = Violated.
Proof. split; [| split]; reflexivity. Qed.

Lemma condorcet_never_unfit (G : Group) (n : nat)
    (ballot : list (list Wire)) :
  square n ballot ->
  Forall (fun c => check G c <> Unfit)
         (asserted (assert_condorcet_ballot G ballot)).
Proof.
  intros Hsq. rewrite (condorcet_square G n) by assumption.
  cbn [asserted fst]. apply Forall_app. split; apply Forall_forall;
    intros c Hc; apply in_flat_map in Hc; destruct Hc as (t & _ & Hc).
  - apply in_map_iff in Hc. destruct Hc as (x & <- & _).
    simpl. destruct (is_bit G x); discriminate.
  - destruct t as [[i j] k]. unfold triple_constraints in Hc.
    destruct (Nat.eqb i j || Nat.eqb i k || Nat.eqb j k); [contradiction |].
    destruct Hc as [<- | [<- | []]]; simpl.
    + destruct (is_bit G _); discriminate.
    + destruct (equal_holds G _ _); discriminate.
Qed.

(** C7: [assert_condorcet_ballot] succeeds on the matrix of every strict
    total order of the candidates, whatever their number, and fails with a
    constraint violation on the cycle of three candidates in which 0 is
    preferred to 1, 1 to 2 and 2 to 0. *)
Theorem condorcet_transitive (G : Group) :
  (forall (rank : nat -> nat) (n : nat) (ballot : list (list Wire)),
      strict_total_order rank n ballot ->
      run G (assert_condorcet_ballot G ballot) = Succeeds)
  /\ run G (assert_condorcet_ballot G three_cycle) = ConstraintViolation.
Proof.
  split.
  - intros rank n ballot (Hsq & Hinj & Hent).
    apply run_succeeds. rewrite (condorcet_square G n) by assumption.
    cbn [asserted result fst snd]. split; [eauto |].
    destruct Hsq as [Hlen Hrows].
    apply Forall_app. split; apply Forall_forall; intros c Hc;
      apply in_flat_map in Hc.
    + destruct Hc as ([i row] & Hir & Hc). cbn [fst snd] in Hc.
      apply in_map_iff in Hc. destruct Hc as (x & <- & Hx).
      apply in_others in Hx. destruct Hx as (j & Hji & Hj).
      apply in_enumerate in Hir.
      assert (Hi : (i < n)%nat)
        by (rewrite <- Hlen; apply nth_error_Some; congruence).
      assert (Hrow : length row = n).
      { rewrite Forall_forall in Hrows.
        apply Hrows, (nth_error_In _ _ Hir). }
      assert (Hj' : (j < n)%nat)
        by (rewrite <- Hrow; apply nth_error_Some; congruence).
      assert (Ex : entry ballot i j = x).
      { unfold entry. rewrite (nth_error_nth _ _ _ Hir).
        apply nth_error_nth, Hj. }
      rewrite <- Ex, (Hent i j) by auto. simpl.
      rewrite is_bit_binary; [reflexivity |].
      destruct (rank i <? rank j)%nat; [right | left]; reflexivity.
    + destruct Hc as ([[i j] k] & Hin & Hc).
      apply in_product3 in Hin. destruct Hin as (Hi & Hj & Hk).
      unfold triple_constraints in Hc.
      destruct (Nat.eqb i j || Nat.eqb i k || Nat.eqb j k) eqn:Eg;
        [contradiction |].
      apply orb_false_iff in Eg. destruct Eg as [Eg Ejk].
      apply orb_false_iff in Eg. destruct Eg as [Eij Eik].
      apply Nat.eqb_neq in Eij, Eik, Ejk.
      assert (Rij : rank i <> rank j) by (intros E; apply Eij, Hinj; auto).
      assert (Rik : rank i <> rank k) by (intros E; apply Eik, Hinj; auto).
      assert (Rjk : rank j <> rank k) by (intros E; apply Ejk, Hinj; auto).
      rewrite (Hent i j), (Hent j i), (Hent k j), (Hent k i) in Hc by auto.
      destruct (Nat.ltb_spec (rank i) (rank j)),
        (Nat.ltb_spec (rank j) (rank i)),
        (Nat.ltb_spec (rank k) (rank j)),
        (Nat.ltb_spec (rank k) (rank i)); try lia;
        (destruct Hc as [<- | [<- | []]];
         unfold wsum, and_gate; cbn [fold_left];
         autorewrite with bits;
         [simpl; rewrite is_bit_binary;
          [reflexivity | unfold binary; auto]
         | apply check_equal_singletons; reflexivity]).
  - assert (Hsq : square 3 three_cycle)
      by (split; [reflexivity | repeat constructor]).
    apply run_violated; [apply (condorcet_never_unfit G 3 _ Hsq) |].
    apply Exists_exists.
    exists (AssertEqual
              [and_gate G [wsub G (gen G 1) (entry three_cycle 2 1);
                           wsub G (gen G 1) (entry three_cycle 0 2);
                           wsub G 1 (wsub G (gen G 1)
                                       (entry three_cycle 0 1))]]
              [gen G 0]).
    split.
    + rewrite (condorcet_square G 3 _ Hsq). cbn [asserted fst].
      apply in_or_app. right. apply in_flat_map.
      exists (1%nat, 2%nat, 0%nat).
      split; [apply in_product3; lia |].
      right. left. reflexivity.
    + cbn [entry three_cycle nth]. unfold and_gate. cbn [fold_left].
      autorewrite with bits.
      destruct (check G (AssertEqual [1] [0])) eqn:E; try reflexivity.
      * apply check_equal_singletons in E.
        rewrite val_1, val_0 in E. discriminate.
      * simpl in E. destruct (equal_holds G [1] [0]); discriminate.
Qed.

Lemma condorcet_transitive_witness :
  run BN254 (assert_condorcet_ballot BN254 [[0; 1; 1]; [0; 0; 1]; [0; 0; 0]])
  = Succeeds.
Proof.
  apply (proj1 (condorcet_transitive BN254) (fun i => i) 3%nat).
  split; [split; [reflexivity | repeat constructor] |].
  split; [intros i j _ _ E; exact E |].
  intros i j Hi Hj Hij.
  destruct i as [| [| [| i]]], j as [| [| [| j]]]; try lia; reflexivity.
Defined.

(** ** compute_borda_tournament_style_ballot *)

Lemma wsum_mod (G : Group) (xs : list Wire) :
  wsum G xs = zsum xs mod order G.
Proof.
  destruct xs as [| x xs]; [| apply wsum_val; discriminate].
  symmetry. apply Z.mod_0_l. pose proof (order_pos G). lia.
Qed.

Lemma map_m_ret {A B} (f : A -> M B) (g : A -> B) (xs : list A) :
  (forall x, In x xs -> f x = ret (g x)) -> map_m f xs = ret (map g xs).
Proof.
  induction xs as [| x xs IH]; intros H; [reflexivity |].
  cbn [map_m map]. rewrite (H x) by (left; reflexivity).
  rewrite bind_ret_l, IH by (intros y Hy; apply H; right; exact Hy).
  rewrite bind_ret_l. reflexivity.
Qed.

Lemma filter_above (i s : nat) (xs : list Z) :
  (i < s)%nat ->
  map snd (filter (fun jc : nat * Z => negb (Nat.eqb (fst jc) i))
                  (combine (seq s (length xs)) xs)) = xs.
Proof.
  revert s. induction xs as [| x xs IH]; intros s Hs; [reflexivity |].
  cbn [length seq combine filter fst].
  destruct (Nat.eqb_spec s i) as [E | _]; [lia |].
  cbn [negb map snd]. f_equal. apply IH. lia.
Qed.

Lemma others_from (pre : list Z) (x : Z) (post : list Z) (s : nat) :
  map snd (filter (fun jc : nat * Z =>
                     negb (Nat.eqb (fst jc) (s + length pre)))
                  (combine (seq s (length (pre ++ x :: post)))
                           (pre ++ x :: post)))
  = pre ++ post.
Proof.
  revert s. induction pre as [| p pre IH]; intros s.
  - cbn [app length seq combine filter fst]. rewrite Nat.add_0_r.
    rewrite Nat.eqb_refl. cbn [negb]. apply filter_above. lia.
  - cbn [app length seq combine filter fst].
    destruct (Nat.eqb_spec s (s + S (length pre))) as [E | _]; [lia |].
    cbn [negb map snd]. f_equal.
    replace (s + S (length pre))%nat with (S s + length pre)%nat by lia.
    apply IH.
Qed.

Lemma others_split (pre : list Z) (x : Z) (post : list Z) :
  others (length pre) (pre ++ x :: post) = pre ++ post.
Proof. apply (others_from pre x post 0). Qed.

Lemma map_each_against {B} (f : Z -> list Z -> B) (rest pre : list Z) :
  map (fun ir : nat * Z => f (snd ir) (others (fst ir) (pre ++ rest)))
      (combine (seq (length pre) (length rest)) rest)
  = each_against f pre rest.
Proof.
  revert pre. induction rest as [| x post IH]; intros pre; [reflexivity |].
  cbn [length seq combine map fst snd each_against].
  rewrite others_split. f_equal.
  specialize (IH (pre ++ [x])).
  rewrite <- app_assoc, length_app in IH. cbn [app length] in IH.
  rewrite Nat.add_1_r in IH. exact IH.
Qed.

Lemma map_enumerate_each {B} (f : Z -> list Z -> B) (ranking : list Z) :
  map (fun ir : nat * Z => f (snd ir) (others (fst ir) ranking))
      (enumerate ranking)
  = each_against f [] ranking.
Proof. apply (map_each_against f ranking []). Qed.

Lemma zsum_app (xs ys : list Z) : zsum (xs ++ ys) = zsum xs + zsum ys.
Proof.
  unfold zsum. induction xs as [| x xs IH]; cbn [app fold_right]; lia.
Qed.

Lemma zsum_map_add {A} (f g : A -> Z) (xs : list A) :
  zsum (map (fun x => f x + g x) xs) = zsum (map f xs) + zsum (map g xs).
Proof.
  unfold zsum. induction xs as [| x xs IH]; cbn [map fold_right]; lia.
Qed.

Lemma score_app (rd : reading) (x : Z) (cs ds : list Z) :
  score rd x (cs ++ ds) = score rd x cs + score rd x ds.
Proof. unfold score. rewrite !map_app, !zsum_app. lia. Qed.

Lemma each_against_pre (rd : reading) (rest pre : list Z) :
  zsum (each_against (score rd) pre rest)
  = zsum (map (fun y => score rd y pre) rest)
    + zsum (each_against (score rd) [] rest).
Proof.
  revert pre. induction rest as [| x post IH]; intros pre; [reflexivity |].
  cbn [each_against map app].
  change (zsum (?a :: ?l)) with (a + zsum l).
  rewrite (IH (pre ++ [x])), (IH [x]), score_app.
  rewrite (map_ext (fun y => score rd y (pre ++ [x]))
                   (fun y => score rd y pre + score rd y [x]))
    by (intros y; apply score_app).
  rewrite zsum_map_add. cbn [app]. lia.
Qed.

Lemma score_pair (rd : reading) (x y : Z) :
  separated rd x y -> score rd x [y] + score rd y [x] = 2.
Proof.
  unfold score. cbn [map zsum fold_right].
  destruct rd; cbn [separated exceeds]; unfold apart; intros H.
  - destruct (Z.ltb_spec y (x - 1)), (Z.ltb_spec x (y - 1)),
      (Z.eqb_spec x y), (Z.eqb_spec y x); lia.
  - destruct (Z.leb_spec y (x - 1)), (Z.leb_spec x (y - 1)),
      (Z.eqb_spec x y), (Z.eqb_spec y x); lia.
Qed.

Lemma score_against_all (rd : reading) (x : Z) (post : list Z) :
  Forall (separated rd x) post ->
  score rd x post + zsum (map (fun y => score rd y [x]) post)
  = 2 * Z.of_nat (length post).
Proof.
  induction 1 as [| y post Hy _ IH].
  - unfold score. cbn. lia.
  - change (y :: post) with ([y] ++ post) at 1. rewrite score_app.
    cbn [map length]. change (zsum (?a :: ?l)) with (a + zsum l).
    pose proof (score_pair rd x y Hy). lia.
Qed.

(** Over the integers: when the ranks are pairwise separated, every pair
    of candidates gives two points to exactly one of the two. *)
Lemma total_score (rd : reading) (ranking : list Z) :
  ForallOrdPairs (separated rd) ranking ->
  zsum (each_against (score rd) [] ranking)
  = Z.of_nat (length ranking) * (Z.of_nat (length ranking) - 1).
Proof.
  induction 1 as [| x post Hx _ IH]; [reflexivity |].
  cbn [each_against app length].
  change (zsum (?a :: ?l)) with (a + zsum l).
  rewrite each_against_pre, IH.
  pose proof (score_against_all rd x post Hx). lia.
Qed.

Lemma val_pred (G : Group) (rv : Z) :
  val G (wsub G rv 1) = (rv - 1) mod order G.
Proof.
  unfold wsub, val. apply Z.mod_mod. pose proof (order_pos G). lia.
Qed.

Lemma rank_in_range_comparable (G : Group) (bits : nat) (v : Z) :
  rank_in_range G bits v -> comparable G bits v.
Proof.
  intros [Hv Hb]. unfold comparable. rewrite Z.mod_small by lia. lia.
Qed.

Lemma group_score_in_range (rd : reading) (q rv : Z) (cs : list Z) :
  1 <= rv < q -> group_score rd q rv cs = score rd rv cs.
Proof.
  intros H. unfold group_score, score.
  rewrite Z.mod_small by lia. reflexivity.
Qed.

Lemma point_score (rd : reading) (G : Group) (bits : nat) (rv : Z)
    (cs : list Z) :
  comparable G bits rv -> Forall (comparable G bits) cs ->
  point rd G rv cs = group_score rd (order G) rv cs mod order G.
Proof.
  intros [Hrv _] Hcs. unfold point, group_score.
  rewrite !wsum_mod. unfold wadd, wmul.
  rewrite Zmult_mod_idemp_r, <- Zplus_mod.
  f_equal. f_equal; [f_equal |]; f_equal; apply map_ext_in; intros c Hc;
    rewrite Forall_forall in Hcs; destruct (Hcs c Hc) as [Hc' _].
  - rewrite val_pred, (val_small G c) by lia. reflexivity.
  - unfold eq_gate, weqb. rewrite !val_small by lia. reflexivity.
Qed.

Lemma each_against_points (rd : reading) (G : Group) (bits : nat)
    (rest pre : list Z) :
  Forall (comparable G bits) (pre ++ rest) ->
  zsum (each_against (point rd G) pre rest) mod order G
  = zsum (each_against (group_score rd (order G)) pre rest) mod order G.
Proof.
  revert pre. induction rest as [| x post IH]; intros pre Hall;
    [reflexivity |].
  cbn [each_against]. change (zsum (?a :: ?l)) with (a + zsum l).
  assert (Hx : comparable G bits x).
  { rewrite Forall_forall in Hall. apply Hall, in_elt. }
  assert (Hothers : Forall (comparable G bits) (pre ++ post)).
  { rewrite Forall_forall in *. intros y Hy. apply Hall.
    apply in_app_or in Hy. apply in_or_app.
    destruct Hy; [left | right; right]; assumption. }
  rewrite (point_score rd G bits) by assumption.
  rewrite Zplus_mod_idemp_l.
  rewrite (Zplus_mod (group_score _ _ _ _)), IH, <- Zplus_mod;
    [reflexivity |].
  rewrite <- app_assoc. exact Hall.
Qed.

Lemma each_against_ext {B} (f g : Z -> list Z -> B) (rest pre : list Z) :
  (forall x cs, In x rest -> f x cs = g x cs) ->
  each_against f pre rest = each_against g pre rest.
Proof.
  revert pre. induction rest as [| x post IH]; intros pre H;
    [reflexivity |].
  cbn [each_against]. rewrite (H x) by (left; reflexivity).
  f_equal. apply IH. intros y cs Hy. apply H. right. exact Hy.
Qed.

Lemma borda_points_comparable (rd : reading) (G : Group) (bits : nat)
    (ranking : list Z) (i : nat) (rv : Z) :
  Forall (comparable G bits) ranking -> comparable G bits rv ->
  borda_points rd G ranking bits i rv
  = ret (point rd G rv (others i ranking)).
Proof.
  intros Hall (Hrv & Hbits & Hpred). unfold borda_points, point.
  rewrite (map_m_ret _ (fun c => if exceeds rd (val G (wsub G rv 1))
                                              (val G c)
                                 then 1 else 0)).
  - rewrite bind_ret_l. reflexivity.
  - intros c Hc. apply in_others in Hc. destruct Hc as (j & _ & Hj).
    apply nth_error_In in Hj. rewrite Forall_forall in Hall.
    destruct (Hall c Hj) as (Hc & Hcb & _). unfold gt_gate, fits.
    rewrite val_pred, (val_small G c) by lia.
    destruct (Z.ltb_spec ((rv - 1) mod order G) (2 ^ Z.of_nat bits));
      [| lia].
    destruct (Z.ltb_spec c (2 ^ Z.of_nat bits)); [| lia].
    reflexivity.
Qed.

(** When every comparison is within its contract, the gate returns the
    points of each candidate against the others and registers nothing. *)
Lemma compute_borda_comparable (rd : reading) (G : Group)
    (ranking : list Z) (bits : nat) :
  Forall (comparable G bits) ranking ->
  compute_borda_tournament_style_ballot rd G ranking bits
  = ret (each_against (point rd G) [] ranking)
  /\ length (each_against (point rd G) [] ranking) = length ranking
  /\ wsum G (each_against (point rd G) [] ranking)
     = zsum (each_against (group_score rd (order G)) [] ranking)
       mod order G.
Proof.
  intros Hall. split; [| split].
  - unfold compute_borda_tournament_style_ballot.
    rewrite (map_m_ret _ (fun ir => point rd G (snd ir)
                                      (others (fst ir) ranking))).
    + rewrite (map_enumerate_each (point rd G)). reflexivity.
    + intros [i rv] Hin. apply borda_points_comparable; [assumption |].
      apply in_enumerate, nth_error_In in Hin.
      rewrite Forall_forall in Hall. auto.
  - rewrite <- (map_enumerate_each (point rd G)), length_map.
    unfold enumerate. rewrite length_combine, length_seq. lia.
  - rewrite wsum_mod. apply (each_against_points rd G bits). exact Hall.
Qed.

(** *** Rankings that are permutations of 0, ..., n - 1 *)

Lemma zsum_perm (xs ys : list Z) : Permutation xs ys -> zsum xs = zsum ys.
Proof.
  unfold zsum. induction 1; cbn [fold_right]; lia.
Qed.

Lemma below_app (p : Z) (cs ds : list Z) :
  below p (cs ++ ds) = below p cs + below p ds.
Proof. unfold below. rewrite map_app, zsum_app. reflexivity. Qed.

Lemma below_perm (p : Z) (cs ds : list Z) :
  Permutation cs ds -> below p cs = below p ds.
Proof. intros H. unfold below. apply zsum_perm, Permutation_map, H. Qed.

Lemma no_tie (v : Z) (cs : list Z) :
  ~ In v cs -> zsum (map (fun c => if v =? c then 1 else 0) cs) = 0.
Proof.
  induction cs as [| c cs IH]; intros Hv; [reflexivity |].
  cbn [map]. change (zsum (?a :: ?l)) with (a + zsum l).
  rewrite IH by (intros H; apply Hv; right; exact H).
  destruct (Z.eqb_spec v c) as [-> |]; [| reflexivity].
  exfalso. apply Hv. left. reflexivity.
Qed.

Lemma each_against_whole (q : Z) (rest pre : list Z) :
  NoDup (pre ++ rest) ->
  each_against (group_score Strict q) pre rest
  = map (whole q (pre ++ rest)) rest.
Proof.
  revert pre. induction rest as [| x post IH]; intros pre Hnd;
    [reflexivity |].
  cbn [each_against map]. f_equal.
  - unfold group_score, whole. cbn [exceeds].
    fold (below ((x - 1) mod q) (pre ++ post)).
    rewrite (no_tie x) by (apply NoDup_remove_2; exact Hnd).
    rewrite !below_app. change (x :: post) with ([x] ++ post).
    rewrite below_app. unfold below at 4. cbn [map zsum fold_right]. lia.
  - specialize (IH (pre ++ [x])). rewrite <- app_assoc in IH.
    apply IH. exact Hnd.
Qed.

Lemma below_seq (p : Z) (n : nat) :
  0 <= p -> below p (map Z.of_nat (seq 0 n)) = Z.min p (Z.of_nat n).
Proof.
  intros Hp. induction n as [| n IH]; [cbn; lia |].
  rewrite seq_S, map_app, below_app, IH. cbn [Nat.add map].
  unfold below at 1. cbn [map zsum fold_right].
  destruct (Z.ltb_spec (Z.of_nat n) p); lia.
Qed.

Lemma whole_seq (q : Z) (n k : nat) :
  (k < n)%nat -> Z.of_nat n < q ->
  whole q (map Z.of_nat (seq 0 n)) (Z.of_nat k)
  = if Z.of_nat k =? 0 then 2 * (Z.of_nat n - 1)
    else 2 * (Z.of_nat k - 1).
Proof.
  intros Hk Hq. unfold whole.
  rewrite below_seq by (apply Z.mod_pos_bound; lia).
  destruct (Z.eqb_spec (Z.of_nat k) 0) as [E | E].
  - rewrite E.
    assert (Hm : (0 - 1) mod q = q - 1).
    { symmetry. apply (Z.mod_unique_pos _ _ (-1)); lia. }
    rewrite Hm. destruct (Z.ltb_spec 0 (q - 1)); lia.
  - rewrite Z.mod_small by lia.
    destruct (Z.ltb_spec (Z.of_nat k) (Z.of_nat k - 1)); lia.
Qed.

Lemma sum_dense (a : Z) (n : nat) :
  zsum (map (fun v => if v =? 0 then a else 2 * (v - 1))
            (map Z.of_nat (seq 0 n)))
  = if Nat.eqb n 0 then 0
    else a + (Z.of_nat n - 1) * (Z.of_nat n - 2).
Proof.
  induction n as [| n IH]; [reflexivity |].
  rewrite seq_S, !map_app, zsum_app, IH. cbn [Nat.add map Nat.eqb].
  cbn [zsum fold_right].
  destruct n as [| n]; [cbn; lia |].
  cbn [Nat.eqb]. destruct (Z.eqb_spec (Z.of_nat (S n)) 0); lia.
Qed.

(** Over the integers: on a permutation of 0, ..., n - 1 in a group of
    more than n elements the rank 0 earns 2 (n - 1) points and the rank
    v >= 1 earns 2 (v - 1) points. *)
Lemma total_dense (q : Z) (ranking : list Z) :
  dense_ranking ranking -> Z.of_nat (length ranking) < q ->
  zsum (each_against (group_score Strict q) [] ranking)
  = Z.of_nat (length ranking) * (Z.of_nat (length ranking) - 1).
Proof.
  unfold dense_ranking. set (n := length ranking).
  set (sorted := map Z.of_nat (seq 0 n)). intros Hperm Hq.
  assert (Hnd : NoDup ranking).
  { apply (Permutation_NoDup (Permutation_sym Hperm)).
    apply Injective_map_NoDup; [| apply seq_NoDup].
    intros x y. apply Nat2Z.inj. }
  rewrite (each_against_whole q ranking [] Hnd). cbn [app].
  rewrite (map_ext (whole q ranking) (whole q sorted))
    by (intros v; unfold whole; rewrite (below_perm _ _ _ Hperm);
        reflexivity).
  rewrite (zsum_perm _ _ (Permutation_map (whole q sorted) Hperm)).
  rewrite (map_ext_in (whole q sorted)
             (fun v => if v =? 0 then 2 * (Z.of_nat n - 1)
                       else 2 * (v - 1))).
  - unfold sorted. rewrite sum_dense. destruct n as [| n']; [reflexivity |].
    cbn [Nat.eqb]. lia.
  - intros v Hv. unfold sorted in *. apply in_map_iff in Hv.
    destruct Hv as (k & <- & Hk).
    apply in_seq in Hk. apply whole_seq; lia.
Qed.

Lemma dense_comparable (G : Group) (bits : nat) (ranking : list Z) :
  dense_ranking ranking ->
  Z.of_nat (length ranking) < order G ->
  order G <= 2 ^ Z.of_nat bits ->
  Forall (comparable G bits) ranking.
Proof.
  intros Hperm Hlen Hbits. apply Forall_forall. intros v Hv.
  apply (Permutation_in _ Hperm), in_map_iff in Hv.
  destruct Hv as (k & <- & Hk). apply in_seq in Hk.
  pose proof (Z.mod_pos_bound (Z.of_nat k - 1) (order G) (order_pos G)).
  unfold comparable. lia.
Qed.

(** C5, as amended: [compute_borda_tournament_style_ballot] returns [n]
    scores that sum to [n * (n - 1)], and registers no assertion, for every
    ranking of [n] wires whose values are at least 1, fit in [bits] bits
    and are pairwise separated: neither equal nor adjacent when the
    comparison is strict, distinct when it is not; and, when the comparison
    is strict, for every ranking that is a permutation of 0, ..., n - 1 in
    a group of more than [n] elements which all fit in [bits] bits. *)
Theorem borda_tournament_total (rd : reading) (G : Group)
    (ranking : list Wire) (bits : nat) :
  Forall (rank_in_range G bits) ranking
  /\ ForallOrdPairs (separated rd) ranking
  \/ rd = Strict
     /\ dense_ranking ranking
     /\ Z.of_nat (length ranking) < order G
     /\ order G <= 2 ^ Z.of_nat bits ->
  exists points : list Wire,
    compute_borda_tournament_style_ballot rd G ranking bits = ret points
    /\ length points = length ranking
    /\ wsum G points
       = gen G (Z.of_nat (length ranking)
                * (Z.of_nat (length ranking) - 1)).
Proof.
  intros Hcases.
  assert (Hall : Forall (comparable G bits) ranking).
  { destruct Hcases as [[Hall _] | (_ & Hperm & Hlen & Hbits)].
    - eapply Forall_impl; [| exact Hall].
      apply rank_in_range_comparable.
    - apply dense_comparable; assumption. }
  destruct (compute_borda_comparable rd G ranking bits Hall)
    as (Hret & Hlen & Hsum).
  exists (each_against (point rd G) [] ranking).
  split; [exact Hret |]. split; [exact Hlen |].
  rewrite Hsum. unfold gen. f_equal.
  destruct Hcases as [[Hrange Hsep] | (-> & Hperm & Hn & _)].
  - rewrite (each_against_ext (group_score rd (order G)) (score rd)).
    + apply total_score, Hsep.
    + intros x cs Hx. apply group_score_in_range.
      rewrite Forall_forall in Hrange. apply (Hrange x Hx).
  - apply total_dense; assumption.
Qed.

Lemma borda_tournament_total_witness :
  exists points : list Wire,
    compute_borda_tournament_style_ballot Strict BN254 [5; 1; 3] 8
    = ret points
    /\ length points = length [5; 1; 3]
    /\ wsum BN254 points
       = gen BN254 (Z.of_nat (length [5; 1; 3])
                    * (Z.of_nat (length [5; 1; 3]) - 1)).
Proof.
  apply (borda_tournament_total Strict BN254 [5; 1; 3] 8).
  left. split.
  - repeat (apply Forall_cons; [vm_compute; intuition discriminate |]).
    apply Forall_nil.
  - repeat (apply FOP_cons;
            [repeat (apply Forall_cons; [vm_compute; discriminate |]);
             apply Forall_nil |]).
    apply FOP_nil.
Defined.

(** C5 as stated fails in both readings of the comparison.  The ranks 0
    and 3 are distinct and fit, with their predecessors in the group, in
    254 bits; the predecessor of 0 is the largest value of the group, so
    each of the two candidates earns two points against the other, and the
    scores sum to 4 and not to 2.  With the strict comparison of the spec
    the ranks 1, 2, 3 give the scores 0, 0 and 2, which sum to 2 and not to
    6: since 2 - 1 is not greater than 1, the candidate of rank 2 earns
    nothing against the candidate of rank 1. *)
Lemma borda_adjacent_ranks :
  compute_borda_tournament_style_ballot Strict BN254 [0; 3] 254
  = ret [2; 2]
  /\ compute_borda_tournament_style_ballot AtLeast BN254 [0; 3] 254
     = ret [2; 2]
  /\ wsum BN254 [2; 2] = 4
  /\ gen BN254 (2 * (2 - 1)) = 2
  /\ compute_borda_tournament_style_ballot Strict BN254 [1; 2; 3] 8
     = ret [0; 0; 2]
  /\ wsum BN254 [0; 0; 2] = 2
  /\ gen BN254 (3 * (3 - 1)) = 6.
Proof. repeat split. Qed.

(** The rank 0 wraps around to the largest value of the group when one is
    subtracted, so it counts as the highest rank, as the docstring of the
    function says, once [bits] covers the group: on the ranks 0, 1, 2 the
    scores are 4, 0 and 2 with the strict comparison. *)
Example borda_zero_is_highest :
  compute_borda_tournament_style_ballot Strict BN254 [0; 1; 2] 254
  = ret [4; 0; 2].
Proof. reflexivity. Qed.

(** On a ranking that is a permutation of 0, ..., n - 1 the scores are
    then those of a Borda count in which 0 is the highest rank and 1 the
    lowest. *)
Example borda_permutation :
  compute_borda_tournament_style_ballot Strict BN254 [2; 0; 3; 1] 254
  = ret [2; 6; 4; 0].
Proof. reflexivity. Qed.

(** With the other comparison the ranks 1, 2, 3 score 0, 2 and 4. *)
Example borda_at_least :
  compute_borda_tournament_style_ballot AtLeast BN254 [1; 2; 3] 8
  = ret [0; 2; 4].
Proof. reflexivity. Qed.

(** A comparison on a rank that does not fit in [bits] bits is outside the
    contract of the comparison gate. *)
Example borda_rank_out_of_range :
  result (compute_borda_tournament_style_ballot Strict BN254 [1; 300] 8)
  = inl PreconditionError.
Proof. reflexivity. Qed.

(** ** The other gates of the module *)

Lemma assert_majority_judgment_rows (G : Group) (ballot : list (list Wire)) :
  asserted (assert_majority_judgment_ballot G ballot)
  = flat_map (fun row => asserted (assert_single_vote G row)) ballot
  /\ result (assert_majority_judgment_ballot G ballot) = inr tt.
Proof.
  apply for_each_ok. intros row _. rewrite assert_single_vote_asserted.
  reflexivity.
Qed.

Lemma assert_multi_vote_with_rules_short (G : Group) (ballot : list Wire)
    (max_choices : option Wire) (bits : nat)
    (max_votes_per_candidate : option Wire) (totalbits : option nat) :
  (length ballot <= 2)%nat ->
  assert_multi_vote_with_rules G ballot max_choices bits
    max_votes_per_candidate totalbits
  = assert_multi_vote G ballot max_choices bits max_votes_per_candidate
      totalbits.
Proof.
  intros Hlen. unfold assert_multi_vote_with_rules.
  destruct (Nat.ltb_spec 2 (length ballot)) as [H | _]; [lia |].
  rewrite assert_multi_vote_asserted. unfold bind, ret.
  rewrite app_nil_r. reflexivity.
Qed.

(** * Further properties of the gates *)

(** ** Runs that cannot raise *)

Lemma check_bit_fit (rd : reading) (G : Group) (w : Wire) :
  check_as rd G (AssertBit w) <> Unfit.
Proof. simpl. destruct (is_bit G w); discriminate. Qed.

Lemma check_equal_fit (rd : reading) (G : Group) (l r : list Wire) :
  check_as rd G (AssertEqual l r) <> Unfit.
Proof. simpl. destruct (equal_holds G l r); discriminate. Qed.

Lemma check_bit_holds (rd : reading) (G : Group) (w : Wire) :
  check_as rd G (AssertBit w) = Holds <-> val G w = 0 \/ val G w = 1.
Proof.
  simpl. rewrite <- is_bit_true. destruct (is_bit G w); split; congruence.
Qed.

Lemma check_equal_holds (rd : reading) (G : Group) (l r : list Wire) :
  check_as rd G (AssertEqual l r) = Holds <-> equal_holds G l r = true.
Proof. simpl. destruct (equal_holds G l r); split; congruence. Qed.

(** A gate that returns and registers only assertions within their
    contract either succeeds or fails with a constraint violation. *)
Lemma run_returns {A} (rd : reading) (G : Group) (m : M A) (a : A) :
  result m = inr a ->
  Forall (fun c => check_as rd G c <> Unfit) (asserted m) ->
  run_as rd G m = Succeeds \/ run_as rd G m = ConstraintViolation.
Proof.
  unfold run_as. intros -> Hfit.
  induction Hfit as [| c cs Hc _ IH]; cbn [first_failure_as]; [auto |].
  destruct (check_as rd G c); [exact IH | auto | congruence].
Qed.

Lemma Forall_flat_map {A B} (P : B -> Prop) (f : A -> list B)
    (xs : list A) :
  Forall P (flat_map f xs) <-> Forall (fun x => Forall P (f x)) xs.
Proof.
  induction xs as [| x xs IH]; cbn [flat_map].
  - split; constructor.
  - rewrite Forall_app, IH. split.
    + intros [H1 H2]. constructor; assumption.
    + intros H. inversion H; subst. auto.
Qed.

(** ** assert_single_vote and assert_majority_judgment_ballot *)

Lemma single_vote_fit (rd : reading) (G : Group) (ballot : list Wire) :
  Forall (fun c => check_as rd G c <> Unfit)
         (asserted (assert_single_vote G ballot)).
Proof.
  rewrite assert_single_vote_asserted. cbn [asserted fst].
  apply Forall_app. split.
  - apply Forall_map, Forall_forall. intros w _. apply check_bit_fit.
  - constructor; [apply check_equal_fit | constructor].
Qed.

Lemma single_vote_holds (rd : reading) (G : Group) (ballot : list Wire) :
  Forall (fun c => check_as rd G c = Holds)
         (asserted (assert_single_vote G ballot))
  <-> Forall (fun w => val G w = 0 \/ val G w = 1) ballot
      /\ zsum ballot mod order G = 1.
Proof.
  rewrite assert_single_vote_asserted. cbn [asserted fst].
  rewrite Forall_app, Forall_map.
  assert (Hsum : Forall (fun c => check_as rd G c = Holds)
                        [AssertEqual ballot [gen G 1]]
                 <-> zsum ballot mod order G = 1).
  { split.
    - intros H. inversion H as [| ? ? Hc _]; subst.
      apply check_equal_holds, equal_holds_gen_1 in Hc.
      rewrite val_wsum, val_gen, val_1 in Hc. exact Hc.
    - intros H. constructor; [| constructor].
      apply check_equal_holds, equal_holds_gen_1.
      rewrite val_wsum, val_gen, val_1. exact H. }
  rewrite Hsum. split; intros [Hb Hs]; (split; [| exact Hs]);
    (eapply Forall_impl; [| exact Hb]); intros w; apply check_bit_holds.
Qed.

(** Whatever the ballot and the reading of the comparisons,
    [assert_single_vote] never raises: it succeeds exactly when the value
    of every entry is 0 or 1 and the entries sum to 1 modulo the order of
    the group, and otherwise fails with a constraint violation; so the
    empty ballot and every ballot with an entry that is not a bit fail. *)
Theorem single_vote_outcome (rd : reading) (G : Group)
    (ballot : list Wire) :
  (run_as rd G (assert_single_vote G ballot) = Succeeds
   <-> Forall (fun w => val G w = 0 \/ val G w = 1) ballot
       /\ zsum ballot mod order G = 1)
  /\ (run_as rd G (assert_single_vote G ballot) = Succeeds
      \/ run_as rd G (assert_single_vote G ballot) = ConstraintViolation)
  /\ run_as rd G (assert_single_vote G []) = ConstraintViolation.
Proof.
  split; [| split].
  - rewrite run_succeeds, single_vote_holds.
    rewrite assert_single_vote_asserted. cbn [result snd].
    split; [tauto | intros H; split; [eauto | exact H]].
  - apply (run_returns rd G _ tt); [| apply single_vote_fit].
    rewrite assert_single_vote_asserted. reflexivity.
  - destruct (run_returns rd G (assert_single_vote G []) tt eq_refl
                (single_vote_fit rd G [])) as [H | H]; [| exact H].
    apply run_succeeds in H. destruct H as [_ H].
    apply single_vote_holds in H. destruct H as [_ H].
    change (zsum []) with 0 in H.
    rewrite Z.mod_0_l in H by (pose proof (order_pos G); lia).
    discriminate.
Qed.

Lemma majority_judgment_rows_run (rd : reading) (G : Group)
    (ballot : list (list Wire)) :
  run_as rd G (assert_majority_judgment_ballot G ballot) = Succeeds
  <-> Forall (fun row =>
                run_as rd G (assert_single_vote G row) = Succeeds) ballot.
Proof.
  destruct (assert_majority_judgment_rows G ballot) as [Ha Hr].
  rewrite run_succeeds, Ha, Hr, Forall_flat_map. split.
  - intros [_ H]. eapply Forall_impl; [| exact H]. intros row Hrow.
    apply run_succeeds. split; [| exact Hrow].
    rewrite assert_single_vote_asserted. cbn. eauto.
  - intros H. split; [eauto |]. eapply Forall_impl; [| exact H].
    intros row Hrow. apply run_succeeds in Hrow. tauto.
Qed.

(** On a matrix of binary entries whose rows are shorter than the order
    of the group, [assert_majority_judgment_ballot] succeeds exactly when
    every row holds exactly one 1, and otherwise fails with a constraint
    violation. *)
Theorem majority_judgment_one_grade (G : Group)
    (ballot : list (list Wire)) :
  Forall (fun row => Forall binary row
                     /\ Z.of_nat (length row) < order G) ballot ->
  (run G (assert_majority_judgment_ballot G ballot) = Succeeds
   <-> Forall (fun row => ones row = 1%nat) ballot)
  /\ (run G (assert_majority_judgment_ballot G ballot) = Succeeds
      \/ run G (assert_majority_judgment_ballot G ballot)
         = ConstraintViolation).
Proof.
  intros Hrows. split.
  - rewrite majority_judgment_rows_run.
    induction Hrows as [| row rows [Hbin Hlen] _ IH].
    + split; constructor.
    + rewrite !Forall_cons_iff, IH.
      assert (Hrow : run G (assert_single_vote G row) = Succeeds
                     <-> ones row = 1%nat).
      { rewrite single_vote_run by assumption.
        pose proof (ones_le_length row).
        rewrite Z.mod_small by lia.
        destruct (Z.eqb_spec (Z.of_nat (ones row)) 1);
          split; intros; try discriminate; try reflexivity; lia. }
      rewrite Hrow. reflexivity.
  - destruct (assert_majority_judgment_rows G ballot) as [Ha Hr].
    apply (run_returns Strict G _ tt); [exact Hr |].
    rewrite Ha. apply Forall_flat_map, Forall_forall. intros row _.
    apply single_vote_fit.
Qed.

Lemma majority_judgment_one_grade_witness :
  run BN254 (assert_majority_judgment_ballot BN254
               [[0; 1; 0]; [1; 0; 0]]) = Succeeds
  <-> Forall (fun row => ones row = 1%nat) [[0; 1; 0]; [1; 0; 0]].
Proof.
  apply (majority_judgment_one_grade BN254 [[0; 1; 0]; [1; 0; 0]]).
  repeat (apply Forall_cons; [split; [binary_ballot | reflexivity] |]).
  apply Forall_nil.
Defined.

(** ** assert_multi_vote and assert_multi_vote_with_rules *)

Lemma equal_holds_singletons (G : Group) (a b : Wire) :
  equal_holds G [a] [b] = true <-> val G a = val G b.
Proof.
  unfold equal_holds. cbn. rewrite andb_true_r. apply weqb_true.
Qed.

Lemma multi_vote_returns (G : Group) (ballot : list Wire)
    (max_choices : option Wire) (bits : nat)
    (max_votes_per_candidate : option Wire) (totalbits : option nat) :
  result (assert_multi_vote G ballot max_choices bits
            max_votes_per_candidate totalbits) = inr tt.
Proof. rewrite assert_multi_vote_asserted. reflexivity. Qed.

(** [assert_multi_vote_with_rules] never raises an index error, whatever
    the length of the ballot: it succeeds exactly when [assert_multi_vote]
    succeeds on the same arguments and, for a ballot of more than two
    entries, the product of the second and third entries equals the first
    in the group. *)
Theorem multi_vote_with_rules_product (rd : reading) (G : Group)
    (ballot : list Wire) (max_choices : option Wire) (bits : nat)
    (max_votes_per_candidate : option Wire) (totalbits : option nat) :
  result (assert_multi_vote_with_rules G ballot max_choices bits
            max_votes_per_candidate totalbits) = inr tt
  /\ (run_as rd G (assert_multi_vote_with_rules G ballot max_choices bits
                     max_votes_per_candidate totalbits) = Succeeds
      <-> run_as rd G (assert_multi_vote G ballot max_choices bits
                         max_votes_per_candidate totalbits) = Succeeds
          /\ ((2 < length ballot)%nat ->
              val G (wmul G (nth 1 ballot 0) (nth 2 ballot 0))
              = val G (nth 0 ballot 0))).
Proof.
  destruct (Nat.le_gt_cases (length ballot) 2) as [Hshort | Hlong].
  - rewrite assert_multi_vote_with_rules_short by assumption.
    split; [apply multi_vote_returns |].
    split; [intros H; split; [exact H | lia] | tauto].
  - destruct ballot as [| b0 [| b1 [| b2 rest]]]; cbn [length] in Hlong;
      try lia.
    set (ballot := b0 :: b1 :: b2 :: rest).
    assert (Hform :
      assert_multi_vote_with_rules G ballot max_choices bits
        max_votes_per_candidate totalbits
      = (asserted (assert_multi_vote G ballot max_choices bits
                     max_votes_per_candidate totalbits)
         ++ [AssertEqual [wmul G b1 b2] [b0]], inr tt)).
    { unfold assert_multi_vote_with_rules.
      rewrite assert_multi_vote_asserted. reflexivity. }
    rewrite Hform. split; [reflexivity |].
    rewrite !run_succeeds, multi_vote_returns.
    cbn [asserted result fst snd nth]. rewrite Forall_app. split.
    + intros (_ & Hmv & Hprod). split; [split; [eauto | exact Hmv] |].
      intros _. inversion Hprod as [| ? ? Hc _]; subst.
      apply check_equal_holds, equal_holds_singletons in Hc. exact Hc.
    + intros ((_ & Hmv) & Hprod). split; [eauto |]. split; [exact Hmv |].
      constructor; [| constructor].
      apply check_equal_holds, equal_holds_singletons, Hprod.
      unfold ballot. cbn [length]. lia.
Qed.

Lemma ones_zero (G : Group) (ballot : list Wire) :
  Forall binary ballot ->
  (Forall (fun w => val G w = 0) ballot <-> ones ballot = 0%nat).
Proof.
  unfold ones. induction 1 as [| w ws Hw _ IH]; cbn [count_occ].
  - split; [reflexivity | constructor].
  - rewrite Forall_cons_iff, IH. destruct Hw as [-> | ->].
    + rewrite val_0. destruct (Z.eq_dec 0 1); [lia | tauto].
    + rewrite val_1. destruct (Z.eq_dec 1 1); [| lia].
      split; [lia | discriminate].
Qed.

Lemma binary_values (G : Group) (ballot : list Wire) :
  Forall binary ballot ->
  Forall (fun w => val G w = 0 \/ val G w = 1) ballot.
Proof.
  intros H. eapply Forall_impl; [| exact H].
  intros w [-> | ->]; [left; apply val_0 | right; apply val_1].
Qed.

(** The total of a 0/1 ballot that is shorter than the order of the group
    fits in the default [totalbits = len(ballot)] bits. *)
Lemma binary_total_fits (G : Group) (ballot : list Wire) :
  Forall binary ballot -> Z.of_nat (length ballot) < order G ->
  val G (wsum G ballot) = Z.of_nat (ones ballot)
  /\ fits G (wsum G ballot) (length ballot) = true.
Proof.
  intros Hbin Hlen. pose proof (ones_le_length ballot).
  assert (Hval : val G (wsum G ballot) = Z.of_nat (ones ballot)).
  { rewrite val_wsum, zsum_binary by assumption. apply Z.mod_small. lia. }
  split; [exact Hval |]. unfold fits. rewrite Hval. apply Z.ltb_lt.
  pose proof (Z.pow_gt_lin_r 2 (Z.of_nat (length ballot))). lia.
Qed.

(** Approval voting with a cap: on a 0/1 ballot shorter than the order of
    the group, [assert_multi_vote] with [max_choices] and every other
    parameter at its default stays within the contract of the comparisons
    (the default [totalbits] is wide enough for the total).  With the
    comparison read as "at most" it succeeds exactly when the number of
    ones is at most [max_choices]; with the strict comparison exactly when
    the ballot holds no 1 and [max_choices] is not 0. *)
Theorem multi_vote_approval_cap (G : Group) (ballot : list Wire)
    (max_choices : Wire) :
  Forall binary ballot -> Z.of_nat (length ballot) < order G ->
  (forall rd,
      run_as rd G (assert_multi_vote G ballot (Some max_choices)
                     default_bits None None) = Succeeds
      \/ run_as rd G (assert_multi_vote G ballot (Some max_choices)
                        default_bits None None) = ConstraintViolation)
  /\ (run_as AtLeast G (assert_multi_vote G ballot (Some max_choices)
                          default_bits None None) = Succeeds
      <-> Z.of_nat (ones ballot) <= val G max_choices)
  /\ (run_as Strict G (assert_multi_vote G ballot (Some max_choices)
                         default_bits None None) = Succeeds
      <-> ones ballot = 0%nat /\ 0 < val G max_choices).
Proof.
  intros Hbin Hlen.
  destruct (binary_total_fits G ballot Hbin Hlen) as [Hval Hfit].
  assert (Hform :
    assert_multi_vote G ballot (Some max_choices) default_bits None None
    = (map (fun wire => AssertGt (gen G 1) wire default_bits) ballot
       ++ [AssertGt max_choices (wsum G ballot) (length ballot)], inr tt))
    by apply assert_multi_vote_asserted.
  assert (Htotal : forall rd,
    check_as rd G (AssertGt max_choices (wsum G ballot) (length ballot))
    = if exceeds rd (val G max_choices) (Z.of_nat (ones ballot))
      then Holds else Violated).
  { intros rd. cbn [check_as]. rewrite Hfit, Hval. reflexivity. }
  assert (Hsucc : forall rd (admitted : Wire -> Prop),
    (forall w, check_as rd G (AssertGt (gen G 1) w default_bits) = Holds
               <-> admitted w) ->
    (run_as rd G (assert_multi_vote G ballot (Some max_choices)
                    default_bits None None) = Succeeds
     <-> Forall admitted ballot
         /\ exceeds rd (val G max_choices) (Z.of_nat (ones ballot))
            = true)).
  { intros rd admitted Hcap. rewrite run_succeeds, Hform.
    cbn [asserted result fst snd]. rewrite Forall_app, Forall_map.
    assert (Hlast : Forall (fun c => check_as rd G c = Holds)
                      [AssertGt max_choices (wsum G ballot)
                         (length ballot)]
                    <-> exceeds rd (val G max_choices)
                          (Z.of_nat (ones ballot)) = true).
    { split.
      - intros H. inversion H as [| ? ? Hc _]; subst.
        rewrite Htotal in Hc.
        destruct (exceeds rd _ _); [reflexivity | discriminate].
      - intros H. constructor; [| constructor].
        rewrite Htotal, H. reflexivity. }
    rewrite Hlast. split.
    - intros (_ & Hb & He). split; [| exact He].
      eapply Forall_impl; [| exact Hb]. intros w. apply Hcap.
    - intros (Hb & He). split; [eauto |]. split; [| exact He].
      eapply Forall_impl; [| exact Hb]. intros w. apply Hcap. }
  split; [| split].
  - intros rd. apply (run_returns rd G _ tt); [rewrite Hform; reflexivity |].
    rewrite Hform. cbn [asserted fst]. apply Forall_app. split.
    + apply Forall_map. eapply Forall_impl; [| exact Hbin].
      intros w Hw. cbn [check_as]. unfold fits.
      change (2 ^ Z.of_nat default_bits) with 2.
      assert (Hv : (val G w <? 2) = true).
      { apply Z.ltb_lt. destruct Hw as [-> | ->];
          [rewrite val_0 | rewrite val_1]; lia. }
      rewrite Hv. destruct (exceeds rd _ _); discriminate.
    + constructor; [| constructor]. rewrite Htotal.
      destruct (exceeds rd _ _); discriminate.
  - rewrite (Hsucc AtLeast _ (check_default_cap_at_least G)).
    cbn [exceeds]. rewrite Z.leb_le. split; [tauto |].
    intros H. split; [apply binary_values, Hbin | exact H].
  - rewrite (Hsucc Strict _ (check_default_cap G)).
    cbn [exceeds]. rewrite Z.ltb_lt, (ones_zero G ballot Hbin). split.
    + intros [H0 Hlt]. rewrite H0 in Hlt. split; [exact H0 | exact Hlt].
    + intros [H0 Hlt]. rewrite H0. split; [reflexivity | exact Hlt].
Qed.

Lemma multi_vote_approval_cap_witness :
  run_as AtLeast BN254 (assert_multi_vote BN254 [1; 0; 1; 0] (Some 2)
                          default_bits None None) = Succeeds
  <-> Z.of_nat (ones [1; 0; 1; 0]) <= val BN254 2.
Proof.
  apply (multi_vote_approval_cap BN254 [1; 0; 1; 0] 2).
  - binary_ballot.
  - reflexivity.
Defined.

(** ** get_n_occurences *)

Lemma occurrences_app (G : Group) (xs ys : list Wire) (wire : Wire) :
  occurrences G (xs ++ ys) wire
  = (occurrences G xs wire + occurrences G ys wire)%nat.
Proof. unfold occurrences. rewrite filter_app, length_app. reflexivity. Qed.

Lemma occurrences_perm (G : Group) (xs ys : list Wire) (wire : Wire) :
  Permutation xs ys -> occurrences G xs wire = occurrences G ys wire.
Proof.
  unfold occurrences.
  induction 1 as [| x xs ys _ IH | x y xs | ? ? ? _ IH1 _ IH2];
    cbn [filter].
  - reflexivity.
  - destruct (weqb G x wire); cbn [length]; congruence.
  - destruct (weqb G y wire), (weqb G x wire); reflexivity.
  - congruence.
Qed.

Lemma get_n_occurences_value (G : Group) (wires : list Wire) (wire : Wire) :
  get_n_occurences G wires wire
  = Z.of_nat (occurrences G wires wire) mod order G.
Proof.
  rewrite get_n_occurences_sum, wsum_mod, zsum_indicators. reflexivity.
Qed.

(** [get_n_occurences] returns the number of entries whose value is that
    of the target, reduced modulo the order of the group: the exact count
    on a sequence shorter than the order, and [gen(0)] on the empty
    sequence. *)
Theorem get_n_occurences_counts (G : Group) (wires : list Wire)
    (wire : Wire) :
  get_n_occurences G wires wire
  = Z.of_nat (occurrences G wires wire) mod order G
  /\ get_n_occurences G [] wire = gen G 0
  /\ (Z.of_nat (length wires) < order G ->
      get_n_occurences G wires wire = Z.of_nat (occurrences G wires wire)
      /\ 0 <= get_n_occurences G wires wire <= Z.of_nat (length wires)).
Proof.
  split; [apply get_n_occurences_value |]. split; [reflexivity |].
  intros Hlen. pose proof (occurrences_le_length G wires wire).
  rewrite get_n_occurences_value, Z.mod_small by lia. lia.
Qed.

Lemma get_n_occurences_counts_witness :
  get_n_occurences BN254 [3; 0; 3; 1] 3
  = Z.of_nat (occurrences BN254 [3; 0; 3; 1] 3)
  /\ 0 <= get_n_occurences BN254 [3; 0; 3; 1] 3
     <= Z.of_nat (length [3; 0; 3; 1]).
Proof.
  apply (proj2 (proj2 (get_n_occurences_counts BN254 [3; 0; 3; 1] 3))).
  reflexivity.
Defined.

(** The count of [get_n_occurences] does not depend on the order of the
    sequence, adds up over a concatenation, and depends on the target only
    through its value in the group. *)
Theorem get_n_occurences_multiset (G : Group) (xs ys : list Wire)
    (wire wire' : Wire) :
  (Permutation xs ys ->
   get_n_occurences G xs wire = get_n_occurences G ys wire)
  /\ get_n_occurences G (xs ++ ys) wire
     = wadd G (get_n_occurences G xs wire) (get_n_occurences G ys wire)
  /\ (val G wire = val G wire' ->
      get_n_occurences G xs wire = get_n_occurences G xs wire').
Proof.
  split; [| split].
  - intros Hperm. rewrite !get_n_occurences_value.
    rewrite (occurrences_perm G xs ys wire Hperm). reflexivity.
  - rewrite !get_n_occurences_value, occurrences_app. unfold wadd.
    rewrite <- Zplus_mod, Nat2Z.inj_add. reflexivity.
  - intros Hv. rewrite !get_n_occurences_value. f_equal. f_equal.
    unfold occurrences. f_equal. apply filter_ext. intros x.
    unfold weqb. rewrite Hv. reflexivity.
Qed.

Lemma get_n_occurences_multiset_witness :
  get_n_occurences Z3 [1; 2; 1] 1 = get_n_occurences Z3 [1; 1; 2] 1
  /\ get_n_occurences Z3 [1; 2; 1] 1 = get_n_occurences Z3 [1; 2; 1] 4.
Proof.
  split.
  - apply (proj1 (get_n_occurences_multiset Z3 [1; 2; 1] [1; 1; 2] 1 1)).
    apply perm_skip, perm_swap.
  - apply (proj2 (proj2
             (get_n_occurences_multiset Z3 [1; 2; 1] [] 1 4))).
    reflexivity.
Defined.

(** ** assert_pointlist_borda_ballot *)

Lemma occurrences_count_occ (G : Group) (wires : list Wire) (wire : Wire) :
  Forall (fun v => 0 <= v < order G) wires -> 0 <= wire < order G ->
  occurrences G wires wire = count_occ Z.eq_dec wires wire.
Proof.
  intros Hall Hw. unfold occurrences.
  induction Hall as [| x xs Hx _ IH]; [reflexivity |].
  cbn [filter count_occ]. unfold weqb at 1.
  rewrite (val_small G x), (val_small G wire) by assumption.
  destruct (Z.eqb_spec x wire), (Z.eq_dec x wire); try congruence;
    cbn [length]; congruence.
Qed.

(** A list whose every value occurs in [l] at least as often is, up to
    order, the beginning of [l]. *)
Lemma submultiset (part l : list Z) :
  (forall v, (count_occ Z.eq_dec part v <= count_occ Z.eq_dec l v)%nat) ->
  exists rest, Permutation l (part ++ rest).
Proof.
  revert l. induction part as [| t part IH]; intros l H.
  - exists l. reflexivity.
  - assert (Hin : In t l).
    { apply (count_occ_In Z.eq_dec). specialize (H t).
      rewrite count_occ_cons_eq in H by reflexivity. lia. }
    destruct (in_split _ _ Hin) as (l1 & l2 & ->).
    destruct (IH (l1 ++ l2)) as [rest Hrest].
    { intros v. specialize (H v). rewrite count_occ_app in *.
      cbn [count_occ] in H. destruct (Z.eq_dec t v); lia. }
    exists rest. cbn [app]. rewrite <- Hrest. symmetry.
    apply Permutation_middle.
Qed.

Lemma permutation_of_counts (part l : list Z) :
  length l = length part ->
  (forall v, (count_occ Z.eq_dec part v <= count_occ Z.eq_dec l v)%nat) ->
  Permutation l part.
Proof.
  intros Hlen H. destruct (submultiset part l H) as [rest Hrest].
  pose proof (Permutation_length Hrest) as Hl.
  rewrite length_app in Hl. destruct rest as [| r rest].
  - rewrite app_nil_r in Hrest. exact Hrest.
  - cbn [length] in Hl. lia.
Qed.

Lemma pointlist_borda_run (G : Group) (ballot ordered_points : list Wire) :
  run G (assert_pointlist_borda_ballot G ballot ordered_points) = Succeeds
  <-> val G (get_n_occurences G ballot (gen G 0))
      = val G (gen G (Z.of_nat (length ballot)
                      - Z.of_nat (length ordered_points)))
      /\ Forall (fun point =>
                   val G (get_n_occurences G ballot point) = val G (gen G 1))
                ordered_points.
Proof.
  rewrite run_succeeds, assert_pointlist_borda_asserted.
  cbn [asserted result fst snd]. rewrite Forall_cons_iff, Forall_map.
  rewrite check_equal_singletons. split.
  - intros (_ & Hz & Hp). split; [auto |].
    eapply Forall_impl; [| exact Hp].
    intros p. apply check_equal_singletons.
  - intros (Hz & Hp). split; [eauto |]. split; [auto |].
    eapply Forall_impl; [| exact Hp].
    intros p. apply check_equal_singletons.
Qed.

(** A valid Borda ballot is a placement of the points: when the entries of
    the ballot and the points are values of the group, the points are
    distinct and not zero, and the ballot is at least as long as the list
    of points and shorter than the order of the group,
    [assert_pointlist_borda_ballot] succeeds exactly when the ballot is a
    permutation of the points followed by zeros. *)
Theorem pointlist_borda_permutation (G : Group)
    (ballot ordered_points : list Wire) :
  Forall (fun v => 0 <= v < order G) ballot ->
  Forall (fun p => 0 < p < order G) ordered_points ->
  NoDup ordered_points ->
  (length ordered_points <= length ballot)%nat ->
  Z.of_nat (length ballot) < order G ->
  run G (assert_pointlist_borda_ballot G ballot ordered_points) = Succeeds
  <-> Permutation ballot
        (ordered_points
         ++ repeat 0 (length ballot - length ordered_points)).
Proof.
  intros Hballot Hpoints Hnd Hle Hlen.
  pose proof (order_gt_1 G) as Hq.
  set (k := (length ballot - length ordered_points)%nat).
  assert (Hocc : forall wire, 0 <= wire < order G ->
             val G (get_n_occurences G ballot wire)
             = Z.of_nat (count_occ Z.eq_dec ballot wire)).
  { intros wire Hw. rewrite val_get_n_occurences.
    pose proof (occurrences_le_length G ballot wire).
    rewrite Z.mod_small by lia.
    rewrite occurrences_count_occ by assumption. reflexivity. }
  assert (Hno0 : ~ In 0 ordered_points).
  { intros H0. rewrite Forall_forall in Hpoints.
    specialize (Hpoints 0 H0). lia. }
  assert (Hrun :
    run G (assert_pointlist_borda_ballot G ballot ordered_points) = Succeeds
    <-> count_occ Z.eq_dec ballot 0 = k
        /\ Forall (fun p => count_occ Z.eq_dec ballot p = 1%nat)
                  ordered_points).
  { rewrite pointlist_borda_run, gen_0, Hocc, val_gen by lia.
    rewrite (val_small G (_ - _)) by lia.
    assert (Hp : forall p, In p ordered_points ->
               (val G (get_n_occurences G ballot p) = val G (gen G 1)
                <-> count_occ Z.eq_dec ballot p = 1%nat)).
    { intros p Hin. rewrite Forall_forall in Hpoints.
      rewrite Hocc, val_gen, val_1 by (specialize (Hpoints p Hin); lia).
      lia. }
    rewrite !Forall_forall. unfold k. split; intros [Hz Hall];
      (split; [lia |]); intros p Hin; apply (Hp p Hin), Hall, Hin. }
  rewrite Hrun. split.
  - intros [Hz Hall]. apply permutation_of_counts.
    + rewrite length_app, repeat_length. unfold k. lia.
    + intros v. rewrite count_occ_app.
      destruct (Z.eq_dec v 0) as [-> | Hv].
      * rewrite count_occ_repeat_eq by reflexivity.
        apply (count_occ_not_In Z.eq_dec) in Hno0. lia.
      * rewrite count_occ_repeat_neq by assumption.
        pose proof (proj1 (NoDup_count_occ Z.eq_dec ordered_points) Hnd v)
          as H1.
        destruct (count_occ Z.eq_dec ordered_points v) as [| c] eqn:Ec;
          [lia |].
        assert (Hin : In v ordered_points)
          by (apply (count_occ_In Z.eq_dec); lia).
        rewrite Forall_forall in Hall. rewrite (Hall v Hin). lia.
  - intros Hperm.
    pose proof (proj1 (Permutation_count_occ Z.eq_dec _ _) Hperm) as Hc.
    split.
    + rewrite Hc, count_occ_app, count_occ_repeat_eq by reflexivity.
      apply (count_occ_not_In Z.eq_dec) in Hno0. lia.
    + apply Forall_forall. intros p Hin.
      assert (Hp0 : p <> 0) by (intros ->; exact (Hno0 Hin)).
      rewrite Hc, count_occ_app, count_occ_repeat_neq by assumption.
      pose proof (proj1 (NoDup_count_occ Z.eq_dec ordered_points) Hnd p).
      apply (count_occ_In Z.eq_dec) in Hin. lia.
Qed.

Lemma pointlist_borda_permutation_witness :
  run BN254 (assert_pointlist_borda_ballot BN254 [2; 0; 3; 1] [3; 2; 1])
  = Succeeds
  <-> Permutation [2; 0; 3; 1]
        ([3; 2; 1] ++ repeat 0 (length [2; 0; 3; 1] - length [3; 2; 1])).
Proof.
  apply (pointlist_borda_permutation BN254 [2; 0; 3; 1] [3; 2; 1]).
  - repeat (apply Forall_cons; [vm_compute; intuition discriminate |]).
    apply Forall_nil.
  - repeat (apply Forall_cons; [vm_compute; intuition discriminate |]).
    apply Forall_nil.
  - repeat (apply NoDup_cons; [cbn; intuition discriminate |]).
    apply NoDup_nil.
  - cbn. lia.
  - reflexivity.
Defined.

(** ** assert_condorcet_ballot on three or more candidates *)

Lemma wsub_val (G : Group) (a b : Wire) :
  wsub G a b = wsub G (val G a) (val G b).
Proof. unfold wsub, val. apply Zminus_mod. Qed.

Lemma wadd_1_1 (G : Group) : 2 < order G -> wadd G 1 1 = 2.
Proof. intros H. unfold wadd. apply Z.mod_small. lia. Qed.

Lemma pair_sum_bit (rd : reading) (G : Group) (a b : Wire) :
  2 < order G ->
  val G a = 0 \/ val G a = 1 -> val G b = 0 \/ val G b = 1 ->
  check_as rd G (AssertBit (wsum G [a; b])) = Holds
  <-> ~ (val G a = 1 /\ val G b = 1).
Proof.
  intros Hq Ha Hb. rewrite check_bit_holds, val_wsum.
  cbn [zsum fold_right]. rewrite Z.add_0_r, Zplus_mod.
  fold (val G a) (val G b).
  destruct Ha as [-> | ->], Hb as [-> | ->]; cbn [Z.add];
    rewrite Z.mod_small by lia; lia.
Qed.

Lemma triple_and_zero (rd : reading) (G : Group) (x y z : Wire) :
  val G x = 0 \/ val G x = 1 -> val G y = 0 \/ val G y = 1 ->
  val G z = 0 \/ val G z = 1 ->
  check_as rd G
    (AssertEqual
       [and_gate G [wsub G (gen G 1) x; wsub G (gen G 1) y;
                    wsub G 1 (wsub G (gen G 1) z)]]
       [gen G 0]) = Holds
  <-> ~ (val G x = 0 /\ val G y = 0 /\ val G z = 1).
Proof.
  intros Hx Hy Hz.
  rewrite check_equal_holds, equal_holds_singletons.
  rewrite (wsub_val G _ x), (wsub_val G _ y), (wsub_val G _ z).
  rewrite !val_gen, !val_1, val_0.
  destruct Hx as [-> | ->], Hy as [-> | ->], Hz as [-> | ->];
    unfold and_gate; cbn [fold_left]; autorewrite with bits;
    rewrite ?val_0, ?val_1; lia.
Qed.

Lemma off_diagonal_asserted (G : Group) (n : nat)
    (ballot : list (list Wire)) (i j : nat) :
  square n ballot -> (i < n)%nat -> (j < n)%nat -> i <> j ->
  In (AssertBit (entry ballot i j))
     (asserted (assert_condorcet_ballot G ballot)).
Proof.
  intros Hsq Hi Hj Hij. rewrite (condorcet_square G n) by assumption.
  destruct Hsq as [Hlen Hrows]. cbn [asserted fst].
  apply in_or_app. left. apply in_flat_map.
  exists (i, nth i ballot []). split.
  - apply in_enumerate, nth_error_nth'. lia.
  - cbn [fst snd]. apply in_map, in_others. exists j.
    split; [auto |]. apply nth_error_nth'.
    rewrite Forall_forall in Hrows. rewrite (Hrows (nth i ballot [])); auto.
    apply nth_In. lia.
Qed.

Lemma triple_asserted (G : Group) (n : nat) (ballot : list (list Wire))
    (i j k : nat) (c : Constraint) :
  square n ballot -> (i < n)%nat -> (j < n)%nat -> (k < n)%nat ->
  i <> j -> i <> k -> j <> k ->
  In c [AssertBit (wsum G [entry ballot i j; entry ballot j i]);
        AssertEqual
          [and_gate G [wsub G (gen G 1) (entry ballot j i);
                       wsub G (gen G 1) (entry ballot k j);
                       wsub G 1 (wsub G (gen G 1) (entry ballot k i))]]
          [gen G 0]] ->
  In c (asserted (assert_condorcet_ballot G ballot)).
Proof.
  intros Hsq Hi Hj Hk Hij Hik Hjk Hc.
  rewrite (condorcet_square G n) by assumption. cbn [asserted fst].
  apply in_or_app. right. apply in_flat_map.
  exists (i, j, k). split; [apply in_product3; auto |].
  unfold triple_constraints.
  apply Nat.eqb_neq in Hij, Hik, Hjk. rewrite Hij, Hik, Hjk. exact Hc.
Qed.

(** What a Condorcet ballot of three or more candidates must satisfy: on a
    square matrix over a group of order larger than 2,
    [assert_condorcet_ballot] succeeds exactly when every entry off the
    diagonal is a bit, no two candidates are each preferred to the other,
    and no three distinct candidates [i], [j], [k] have [j] not preferred
    to [i], [k] not preferred to [j] and yet [k] preferred to [i];
    otherwise it fails with a constraint violation.  The diagonal plays no
    part. *)
Theorem condorcet_accepts (G : Group) (n : nat)
    (ballot : list (list Wire)) :
  square n ballot -> (3 <= n)%nat -> 2 < order G ->
  (run G (assert_condorcet_ballot G ballot) = Succeeds
   <-> (forall i j, (i < n)%nat -> (j < n)%nat -> i <> j ->
          val G (entry ballot i j) = 0 \/ val G (entry ballot i j) = 1)
       /\ (forall i j, (i < n)%nat -> (j < n)%nat -> i <> j ->
             ~ (val G (entry ballot i j) = 1
                /\ val G (entry ballot j i) = 1))
       /\ (forall i j k, (i < n)%nat -> (j < n)%nat -> (k < n)%nat ->
             i <> j -> i <> k -> j <> k ->
             ~ (val G (entry ballot j i) = 0
                /\ val G (entry ballot k j) = 0
                /\ val G (entry ballot k i) = 1)))
  /\ (run G (assert_condorcet_ballot G ballot) = Succeeds
      \/ run G (assert_condorcet_ballot G ballot) = ConstraintViolation).
Proof.
  intros Hsq Hn Hq. split.
  - rewrite run_succeeds. split.
    + intros [_ Hall]. rewrite Forall_forall in Hall.
      assert (Hbits : forall i j, (i < n)%nat -> (j < n)%nat -> i <> j ->
                 val G (entry ballot i j) = 0
                 \/ val G (entry ballot i j) = 1).
      { intros i j Hi Hj Hij. apply (check_bit_holds Strict), Hall.
        apply (off_diagonal_asserted G n); assumption. }
      split; [exact Hbits |]. split.
      * intros i j Hi Hj Hij.
        assert (Hk : exists k, (k < n)%nat /\ k <> i /\ k <> j).
        { destruct (Nat.eq_dec i 0), (Nat.eq_dec j 0), (Nat.eq_dec i 1),
            (Nat.eq_dec j 1);
            first [exists 0%nat; lia | exists 1%nat; lia
                  | exists 2%nat; lia]. }
        destruct Hk as (k & Hk & Hki & Hkj).
        apply (pair_sum_bit Strict G); auto. apply Hall.
        apply (triple_asserted G n ballot i j k); auto. left. reflexivity.
      * intros i j k Hi Hj Hk Hij Hik Hjk.
        apply (triple_and_zero Strict G); auto. apply Hall.
        apply (triple_asserted G n ballot i j k); auto.
        right. left. reflexivity.
    + intros (Hbits & Hpair & Htriple). split.
      { rewrite (condorcet_square G n) by assumption. cbn. eauto. }
      rewrite (condorcet_square G n) by assumption. cbn [asserted fst].
      destruct Hsq as [Hlen Hrows].
      apply Forall_app. split; apply Forall_forall; intros c Hc;
        apply in_flat_map in Hc.
      * destruct Hc as ([i row] & Hir & Hc). cbn [fst snd] in Hc.
        apply in_map_iff in Hc. destruct Hc as (x & <- & Hx).
        apply in_others in Hx. destruct Hx as (j & Hji & Hj).
        apply in_enumerate in Hir.
        assert (Hi : (i < n)%nat)
          by (rewrite <- Hlen; apply nth_error_Some; congruence).
        assert (Hrow : length row = n).
        { rewrite Forall_forall in Hrows.
          apply Hrows, (nth_error_In _ _ Hir). }
        assert (Hj' : (j < n)%nat)
          by (rewrite <- Hrow; apply nth_error_Some; congruence).
        assert (Ex : entry ballot i j = x).
        { unfold entry. rewrite (nth_error_nth _ _ _ Hir).
          apply nth_error_nth, Hj. }
        rewrite <- Ex. apply check_bit_holds. auto.
      * destruct Hc as ([[i j] k] & Hin & Hc).
        apply in_product3 in Hin. destruct Hin as (Hi & Hj & Hk).
        unfold triple_constraints in Hc.
        destruct (Nat.eqb i j || Nat.eqb i k || Nat.eqb j k) eqn:Eg;
          [contradiction |].
        apply orb_false_iff in Eg. destruct Eg as [Eg Ejk].
        apply orb_false_iff in Eg. destruct Eg as [Eij Eik].
        apply Nat.eqb_neq in Eij, Eik, Ejk.
        destruct Hc as [<- | [<- | []]].
        -- apply pair_sum_bit; auto.
        -- apply triple_and_zero; auto.
  - apply (run_returns Strict G _ tt).
    + rewrite (condorcet_square G n) by assumption. reflexivity.
    + apply (condorcet_never_unfit G n). assumption.
Qed.

Lemma condorcet_accepts_witness :
  run BN254 (assert_condorcet_ballot BN254 three_cycle) = Succeeds
  \/ run BN254 (assert_condorcet_ballot BN254 three_cycle)
     = ConstraintViolation.
Proof.
  apply (condorcet_accepts BN254 3 three_cycle).
  - split; [reflexivity | repeat constructor].
  - lia.
  - reflexivity.
Defined.

(** ** assert_line_vote_ballot on arbitrary wires *)

Lemma last_cons (rest : list Z) (y d : Z) :
  last (y :: rest) d = last rest y.
Proof.
  revert y d. induction rest as [| z rest IH]; intros y d; [reflexivity |].
  change (last (y :: z :: rest) d) with (last (z :: rest) d).
  rewrite (IH z d), (IH z y). reflexivity.
Qed.

Lemma rises_snoc (rest : list Z) (prev x : Z) :
  rises prev (rest ++ [x]) = rises prev rest + (x - last rest prev) * x.
Proof.
  revert prev. induction rest as [| y rest IH]; intros prev.
  - cbn [app rises last]. lia.
  - cbn [app rises]. rewrite IH, last_cons. lia.
Qed.

Lemma runs_snoc (ballot : list Z) (y x : Z) :
  runs ((y :: ballot) ++ [x])
  = runs (y :: ballot) + (x - last ballot y) * x.
Proof. cbn [app runs]. rewrite rises_snoc. lia. Qed.

Lemma runs_rev (ballot : list Z) :
  Forall binary ballot -> runs (rev ballot) = runs ballot.
Proof.
  induction 1 as [| a l Ha Hl IH]; [reflexivity |].
  destruct l as [| b l']; [reflexivity |].
  cbn [rev] in *.
  assert (Hb : binary b) by (inversion Hl; assumption).
  destruct (rev l' ++ [b]) as [| y m] eqn:Em.
  { destruct (rev l'); discriminate. }
  rewrite runs_snoc, IH.
  assert (Hlast : last m y = b).
  { pose proof (last_last (rev l') b y) as Hll.
    rewrite Em, last_cons in Hll. exact Hll. }
  rewrite Hlast. cbn [runs rises].
  destruct Ha as [-> | ->], Hb as [-> | ->]; lia.
Qed.

(** The outcome of [assert_line_vote_ballot] on any ballot that is not
    empty, whatever its wires hold: it never raises; it succeeds exactly
    when every entry has the value 0 or 1 and the accumulated indicator,
    the first entry plus the sum of [(next - prev) * next] over the
    adjacent pairs, is 0 or 1 modulo the order of the group; otherwise it
    fails with a constraint violation. *)
Theorem line_vote_outcome (rd : reading) (G : Group) (first : Wire)
    (rest : list Wire) :
  (run_as rd G (assert_line_vote_ballot G (first :: rest)) = Succeeds
   <-> Forall (fun w => val G w = 0 \/ val G w = 1) (first :: rest)
       /\ (runs (first :: rest) mod order G = 0
           \/ runs (first :: rest) mod order G = 1))
  /\ (run_as rd G (assert_line_vote_ballot G (first :: rest)) = Succeeds
      \/ run_as rd G (assert_line_vote_ballot G (first :: rest))
         = ConstraintViolation).
Proof.
  split.
  - rewrite run_succeeds, assert_line_vote_asserted.
    cbn [asserted result fst snd].
    change (AssertBit first :: map AssertBit rest ++ ?l)
      with (map AssertBit (first :: rest) ++ l).
    rewrite Forall_app, Forall_map. split.
    + intros (_ & Hbits & Hup). split.
      * eapply Forall_impl; [| exact Hbits].
        intros w Hw. apply (check_bit_holds rd), Hw.
      * inversion Hup as [| ? ? Hc _]; subst.
        apply check_bit_holds in Hc. rewrite val_line_up in Hc. exact Hc.
    + intros (Hbits & Hup). split; [eauto |]. split.
      * eapply Forall_impl; [| exact Hbits].
        intros w Hw. apply check_bit_holds, Hw.
      * constructor; [| constructor].
        apply check_bit_holds. rewrite val_line_up. exact Hup.
  - apply (run_returns rd G _ tt).
    + rewrite assert_line_vote_asserted. reflexivity.
    + rewrite assert_line_vote_asserted. cbn [asserted fst].
      change (AssertBit first :: map AssertBit rest ++ ?l)
        with (map AssertBit (first :: rest) ++ l).
      apply Forall_app. split.
      * apply Forall_map, Forall_forall. intros w _. apply check_bit_fit.
      * constructor; [apply check_bit_fit | constructor].
Qed.

(** Reading a binary line-vote ballot from the other end does not change
    the verdict: [assert_line_vote_ballot] has the same outcome on a
    binary ballot and on its reversal, in every group. *)
Theorem line_vote_reversal (G : Group) (ballot : list Wire) :
  Forall binary ballot ->
  run G (assert_line_vote_ballot G (rev ballot))
  = run G (assert_line_vote_ballot G ballot).
Proof.
  intros Hbin. destruct ballot as [| first rest]; [reflexivity |].
  assert (Hne : rev (first :: rest) <> []).
  { cbn [rev]. destruct (rev rest); discriminate. }
  rewrite !line_vote_run; try assumption; try discriminate.
  - rewrite runs_rev by assumption. reflexivity.
  - apply Forall_rev. assumption.
Qed.

Lemma line_vote_reversal_witness :
  run BN254 (assert_line_vote_ballot BN254 (rev [0; 1; 1; 0; 0]))
  = run BN254 (assert_line_vote_ballot BN254 [0; 1; 1; 0; 0]).
Proof. apply line_vote_reversal. binary_ballot. Defined.

(** ** compute_borda_tournament_style_ballot with ties *)

Lemma score_pair_level (rd : reading) (x y : Z) :
  x = y \/ separated rd x y -> score rd x [y] + score rd y [x] = 2.
Proof.
  intros [-> | H]; [| apply score_pair, H].
  unfold score. cbn [map zsum fold_right]. rewrite Z.eqb_refl.
  destruct rd; cbn [exceeds].
  - destruct (Z.ltb_spec y (y - 1)); lia.
  - destruct (Z.leb_spec y (y - 1)); lia.
Qed.

Lemma score_against_level (rd : reading) (x : Z) (post : list Z) :
  Forall (fun y => x = y \/ separated rd x y) post ->
  score rd x post + zsum (map (fun y => score rd y [x]) post)
  = 2 * Z.of_nat (length post).
Proof.
  induction 1 as [| y post Hy _ IH].
  - unfold score. cbn. lia.
  - change (y :: post) with ([y] ++ post) at 1. rewrite score_app.
    cbn [map length]. change (zsum (?a :: ?l)) with (a + zsum l).
    pose proof (score_pair_level rd x y Hy). lia.
Qed.

(** Over the integers: a pair of candidates shares two points also when
    the two are tied, one point each. *)
Lemma total_score_level (rd : reading) (ranking : list Z) :
  ForallOrdPairs (fun x y => x = y \/ separated rd x y) ranking ->
  zsum (each_against (score rd) [] ranking)
  = Z.of_nat (length ranking) * (Z.of_nat (length ranking) - 1).
Proof.
  induction 1 as [| x post Hx _ IH]; [reflexivity |].
  cbn [each_against app length].
  change (zsum (?a :: ?l)) with (a + zsum l).
  rewrite each_against_pre, IH.
  pose proof (score_against_level rd x post Hx). lia.
Qed.

Lemma equal_or_distinct (ranking : list Z) :
  ForallOrdPairs (fun x y => x = y \/ separated AtLeast x y) ranking.
Proof.
  induction ranking as [| x post IH]; constructor; [| exact IH].
  apply Forall_forall. intros y _. cbn [separated].
  destruct (Z.eq_dec x y); auto.
Qed.

Lemma in_others_in {A} (i : nat) (xs : list A) (x : A) :
  In x (others i xs) -> In x xs.
Proof.
  intros H. apply in_others in H. destruct H as (j & _ & Hj).
  apply (nth_error_In _ _ Hj).
Qed.

(** The points that [compute_borda_tournament_style_ballot] returns, over
    the integers: on ranks that are at least 1 and fit in [bits] bits, the
    candidate [i] is given two points for every other candidate whose rank
    its own rank less one exceeds, and one point for every other candidate
    of its own rank, as [score] counts them; the function returns one
    such score for each candidate and raises nothing. *)
Theorem borda_scores (rd : reading) (G : Group) (ranking : list Wire)
    (bits : nat) :
  Forall (rank_in_range G bits) ranking ->
  compute_borda_tournament_style_ballot rd G ranking bits
  = ret (map (fun ir => gen G (score rd (snd ir)
                                 (others (fst ir) ranking)))
             (enumerate ranking)).
Proof.
  intros Hrange.
  assert (Hall : Forall (comparable G bits) ranking).
  { eapply Forall_impl; [| exact Hrange]. apply rank_in_range_comparable. }
  destruct (compute_borda_comparable rd G ranking bits Hall) as [-> _].
  rewrite <- (map_enumerate_each (point rd G)). f_equal.
  apply map_ext_in. intros [i rv] Hin. cbn [fst snd].
  apply in_enumerate, nth_error_In in Hin.
  rewrite Forall_forall in Hall, Hrange.
  rewrite (point_score rd G bits).
  - rewrite group_score_in_range by (apply (Hrange rv Hin)). reflexivity.
  - apply Hall, Hin.
  - apply Forall_forall. intros c Hc. apply Hall.
    apply (in_others_in i), Hc.
Qed.

Lemma borda_scores_witness :
  compute_borda_tournament_style_ballot AtLeast BN254 [2; 2; 1] 8
  = ret (map (fun ir => gen BN254 (score AtLeast (snd ir)
                                     (others (fst ir) [2; 2; 1])))
             (enumerate [2; 2; 1])).
Proof.
  apply (borda_scores AtLeast BN254 [2; 2; 1] 8).
  repeat (apply Forall_cons; [vm_compute; intuition discriminate |]).
  apply Forall_nil.
Defined.

(** Ties keep the total of a tournament-style Borda count: on ranks that
    are at least 1 and fit in [bits] bits, the scores sum to
    [n * (n - 1)] in the group whenever every two ranks are equal or
    separated (neither equal nor adjacent for the strict comparison,
    distinct for the other); with the comparison read as "at least", that
    is for every such ranking. *)
Theorem borda_total_with_ties (G : Group) (ranking : list Wire)
    (bits : nat) :
  Forall (rank_in_range G bits) ranking ->
  (forall rd : reading,
      ForallOrdPairs (fun x y => x = y \/ separated rd x y) ranking ->
      exists points : list Wire,
        compute_borda_tournament_style_ballot rd G ranking bits
        = ret points
        /\ wsum G points
           = gen G (Z.of_nat (length ranking)
                    * (Z.of_nat (length ranking) - 1)))
  /\ exists points : list Wire,
       compute_borda_tournament_style_ballot AtLeast G ranking bits
       = ret points
       /\ wsum G points
          = gen G (Z.of_nat (length ranking)
                   * (Z.of_nat (length ranking) - 1)).
Proof.
  intros Hrange.
  assert (Hall : Forall (comparable G bits) ranking).
  { eapply Forall_impl; [| exact Hrange]. apply rank_in_range_comparable. }
  assert (Hrd : forall rd : reading,
             ForallOrdPairs (fun x y => x = y \/ separated rd x y) ranking ->
             exists points : list Wire,
               compute_borda_tournament_style_ballot rd G ranking bits
               = ret points
               /\ wsum G points
                  = gen G (Z.of_nat (length ranking)
                           * (Z.of_nat (length ranking) - 1))).
  { intros rd Hlevel.
    destruct (compute_borda_comparable rd G ranking bits Hall)
      as (Hret & _ & Hsum).
    exists (each_against (point rd G) [] ranking).
    split; [exact Hret |]. rewrite Hsum. unfold gen. f_equal.
    rewrite (each_against_ext (group_score rd (order G)) (score rd)).
    - apply total_score_level, Hlevel.
    - intros x cs Hx. apply group_score_in_range.
      rewrite Forall_forall in Hrange. apply (Hrange x Hx). }
  split; [exact Hrd |]. apply Hrd, equal_or_distinct.
Qed.

Lemma borda_total_with_ties_witness :
  exists points : list Wire,
    compute_borda_tournament_style_ballot AtLeast BN254 [2; 2; 1] 8
    = ret points
    /\ wsum BN254 points
       = gen BN254 (Z.of_nat (length [2; 2; 1])
                    * (Z.of_nat (length [2; 2; 1]) - 1)).
Proof.
  refine (proj2 (borda_total_with_ties BN254 [2; 2; 1] 8 _)).
  repeat (apply Forall_cons; [vm_compute; intuition discriminate |]).
  apply Forall_nil.
Defined.

(** ** exponential_elgamal_over_montgomery_curve_bit_randomness *)

(** The variant with bit randomness against the variant with a scalar:
    when both exponentiations are the scalar multiplication of the curve,
    the plaintext [x] fits in [n_max_bits_x] bits and [r_bits] spells the
    value of [r], most significant bit first and with leading zeros or
    not, the former returns the ciphertext of the latter and registers no
    assertion. *)
Theorem elgamal_bit_randomness_any_width (E : Montgomery)
    (smul : Group -> Wire -> Wire -> HomogeneousPoint E -> Z ->
            HomogeneousPoint E)
    (G : Group) (A B : Wire) (g pk : HomogeneousPoint E) (x r : Wire)
    (r_bits : list Wire) (n_max_bits_x : nat) :
  scalar_multiplication E smul ->
  fits G x n_max_bits_x = true ->
  bits_value G r_bits = val G r ->
  exponential_elgamal_over_montgomery_curve_bit_randomness
    E G A B g pk x r_bits (Some n_max_bits_x)
  = exponential_elgamal_over_montgomery_curve E G A B g pk x r.
Proof.
  intros [Hexp Hbits] Hfit Hr.
  unfold exponential_elgamal_over_montgomery_curve_bit_randomness,
    exponential_elgamal_over_montgomery_curve, split.
  rewrite Hfit, bind_ret_l, !Hexp, !Hbits, Hr.
  rewrite bits_value_to_bits; [reflexivity |].
  unfold fits in Hfit. apply Z.ltb_lt in Hfit.
  pose proof (val_range G x). lia.
Qed.

Lemma elgamal_bit_randomness_any_width_witness :
  exponential_elgamal_over_montgomery_curve_bit_randomness
    toy_curve BN254 0 1 5 7 6 [0; 0; 1; 0; 1] (Some 3%nat)
  = exponential_elgamal_over_montgomery_curve toy_curve BN254 0 1 5 7 6 5.
Proof.
  apply (elgamal_bit_randomness_any_width toy_curve
           (fun G _ _ P n => n * P) BN254 0 1 5 7 6 5 [0; 0; 1; 0; 1] 3).
  - split; intros; reflexivity.
  - reflexivity.
  - reflexivity.
Defined.

(** ** assert_condorcet_ballot on matrices that are not square *)

Lemma result_bind {A B} (m : M A) (f : A -> M B) :
  result (bind m f)
  = match result m with
    | inl e => inl e
    | inr a => result (f a)
    end.
Proof.
  destruct m as [cs [e | a]]; cbn [bind result snd]; [reflexivity |].
  destruct (f a). reflexivity.
Qed.

Lemma for_each_returns {A} (xs : list A) (body : A -> M unit) :
  result (for_each xs body) = inr tt
  <-> forall x, In x xs -> result (body x) = inr tt.
Proof.
  induction xs as [| x xs IH]; cbn [for_each In].
  - split; [tauto | reflexivity].
  - rewrite result_bind. destruct (result (body x)) as [e | []] eqn:E.
    + split; [discriminate |]. intros H.
      specialize (H x (or_introl eq_refl)). congruence.
    + rewrite IH. split.
      * intros H y [<- | Hy]; auto.
      * intros H y Hy. apply H. right. exact Hy.
Qed.

Lemma for_each_raises {A} (xs : list A) (body : A -> M unit) (e : exn) :
  (forall x, In x xs ->
     result (body x) = inr tt \/ result (body x) = inl e) ->
  result (for_each xs body) = inr tt
  \/ result (for_each xs body) = inl e.
Proof.
  induction xs as [| x xs IH]; cbn [for_each]; intros H; [left; reflexivity |].
  rewrite result_bind.
  destruct (H x (or_introl eq_refl)) as [-> | ->]; [| right; reflexivity].
  apply IH. intros y Hy. apply H. right. exact Hy.
Qed.

Lemma index2_present (ballot : list (list Wire)) (i j : nat) :
  (i < length ballot)%nat -> (j < length (nth i ballot []))%nat ->
  index2 ballot i j = ret (entry ballot i j).
Proof.
  intros Hi Hj. unfold index2, index, entry.
  rewrite (nth_error_nth' ballot [] (n := i)) by lia.
  rewrite bind_ret_l.
  rewrite (nth_error_nth' _ 0 (n := j)) by lia. reflexivity.
Qed.

Lemma index2_missing (ballot : list (list Wire)) (i j : nat) :
  (i < length ballot)%nat -> (length (nth i ballot []) <= j)%nat ->
  index2 ballot i j = raise IndexError.
Proof.
  intros Hi Hj. unfold index2, index.
  rewrite (nth_error_nth' ballot [] (n := i)) by lia.
  rewrite bind_ret_l.
  apply nth_error_None in Hj. rewrite Hj. reflexivity.
Qed.

Lemma index2_cases (ballot : list (list Wire)) (i j : nat) :
  (i < length ballot)%nat ->
  (j < length (nth i ballot []))%nat
  /\ index2 ballot i j = ret (entry ballot i j)
  \/ (length (nth i ballot []) <= j)%nat
     /\ index2 ballot i j = raise IndexError.
Proof.
  intros Hi. destruct (Nat.lt_ge_cases j (length (nth i ballot []))).
  - left. split; [assumption |]. apply index2_present; assumption.
  - right. split; [assumption |]. apply index2_missing; assumption.
Qed.

Lemma condorcet_triple_result (G : Group) (ballot : list (list Wire))
    (i j k : nat) :
  (i < length ballot)%nat -> (j < length ballot)%nat ->
  (k < length ballot)%nat -> i <> j -> i <> k -> j <> k ->
  (result (condorcet_triple G ballot (i, j, k)) = inr tt
   <-> (j < length (nth i ballot []))%nat
       /\ (i < length (nth j ballot []))%nat
       /\ (j < length (nth k ballot []))%nat
       /\ (i < length (nth k ballot []))%nat)
  /\ (result (condorcet_triple G ballot (i, j, k)) = inr tt
      \/ result (condorcet_triple G ballot (i, j, k)) = inl IndexError).
Proof.
  intros Hi Hj Hk Hij Hik Hjk. unfold condorcet_triple.
  apply Nat.eqb_neq in Hij, Hik, Hjk. rewrite Hij, Hik, Hjk.
  cbn [orb].
  destruct (index2_cases ballot i j Hi) as [[Lij ->] | [Lij ->]];
    [rewrite bind_ret_l | cbn; split; [split |]; [discriminate | lia | auto]].
  destruct (index2_cases ballot j i Hj) as [[Lji ->] | [Lji ->]];
    [rewrite !bind_ret_l
    | cbn; split; [split |]; [discriminate | lia | auto]].
  destruct (index2_cases ballot k j Hk) as [[Lkj ->] | [Lkj ->]];
    [rewrite !bind_ret_l
    | cbn; split; [split |]; [discriminate | lia | auto]].
  destruct (index2_cases ballot k i Hk) as [[Lki ->] | [Lki ->]];
    [rewrite !bind_ret_l
    | cbn; split; [split |]; [discriminate | lia | auto]].
  cbn. split; [split |]; auto.
Qed.

(** When [assert_condorcet_ballot] raises: it stops with an [IndexError]
    or returns, and it returns exactly when there are fewer than three
    rows, in which case no entry is read by index, or every row holds an
    entry for every other candidate.  Entries on the diagonal and beyond
    the number of rows are never read by index, so the last row may lack
    its diagonal entry. *)
Theorem condorcet_index_error (G : Group) (ballot : list (list Wire)) :
  (result (assert_condorcet_ballot G ballot) = inr tt
   \/ result (assert_condorcet_ballot G ballot) = inl IndexError)
  /\ (result (assert_condorcet_ballot G ballot) = inr tt
      <-> (length ballot < 3)%nat
          \/ forall i j, (i < length ballot)%nat ->
                         (j < length ballot)%nat -> i <> j ->
                         (j < length (nth i ballot []))%nat).
Proof.
  assert (Hres : result (assert_condorcet_ballot G ballot)
                 = result (for_each (product3 (length ballot))
                                    (condorcet_triple G ballot))).
  { unfold assert_condorcet_ballot. rewrite result_bind.
    destruct (for_each_ok (enumerate ballot)
                (fun ir => condorcet_row (fst ir) (snd ir))) as [_ ->];
      [| reflexivity].
    intros ir _. rewrite condorcet_row_asserted. reflexivity. }
  rewrite Hres. split.
  - apply for_each_raises. intros [[i j] k] Hin.
    apply in_product3 in Hin. destruct Hin as (Hi & Hj & Hk).
    destruct (Nat.eq_dec i j) as [Eij | Eij];
      [| destruct (Nat.eq_dec i k) as [Eik | Eik];
         [| destruct (Nat.eq_dec j k) as [Ejk | Ejk]]].
    + left. unfold condorcet_triple.
      apply Nat.eqb_eq in Eij. rewrite Eij. reflexivity.
    + left. unfold condorcet_triple.
      apply Nat.eqb_eq in Eik. rewrite Eik, orb_true_r. reflexivity.
    + left. unfold condorcet_triple.
      apply Nat.eqb_eq in Ejk. rewrite Ejk, orb_true_r. reflexivity.
    + apply condorcet_triple_result; assumption.
  - rewrite for_each_returns. split.
    + intros Hall. destruct (Nat.lt_ge_cases (length ballot) 3) as [| Hn];
        [left; assumption | right].
      intros i j Hi Hj Hij.
      assert (Hk : exists k, (k < length ballot)%nat /\ k <> i /\ k <> j).
      { destruct (Nat.eq_dec i 0), (Nat.eq_dec j 0), (Nat.eq_dec i 1),
          (Nat.eq_dec j 1);
          first [exists 0%nat; lia | exists 1%nat; lia
                | exists 2%nat; lia]. }
      destruct Hk as (k & Hk & Hki & Hkj).
      assert (Hin : In (i, j, k) (product3 (length ballot)))
        by (apply in_product3; auto).
      apply Hall in Hin.
      apply condorcet_triple_result in Hin; auto. tauto.
    + intros Hcases [[i j] k] Hin.
      apply in_product3 in Hin. destruct Hin as (Hi & Hj & Hk).
      destruct (Nat.eq_dec i j) as [Eij | Eij];
        [| destruct (Nat.eq_dec i k) as [Eik | Eik];
           [| destruct (Nat.eq_dec j k) as [Ejk | Ejk]]].
      * unfold condorcet_triple.
        apply Nat.eqb_eq in Eij. rewrite Eij. reflexivity.
      * unfold condorcet_triple.
        apply Nat.eqb_eq in Eik. rewrite Eik, orb_true_r. reflexivity.
      * unfold condorcet_triple.
        apply Nat.eqb_eq in Ejk. rewrite Ejk, orb_true_r. reflexivity.
      * destruct Hcases as [Hn | Hoff]; [lia |].
        apply condorcet_triple_result; auto.
Qed.

(** A matrix of three rows whose second row has lost its last entry makes
    the gate stop with an [IndexError]; one whose last row has lost its
    diagonal entry does not. *)
Example condorcet_short_rows :
  result (assert_condorcet_ballot BN254 [[0; 1; 1]; [0; 0]; [0; 0; 0]])
  = inl IndexError
  /\ run BN254 (assert_condorcet_ballot BN254 [[0; 1; 1]; [0; 0; 1]; [0; 0]])
     = Succeeds.
Proof. split; reflexivity. Qed.

(** ** The size of the Condorcet constraint system *)

Lemma flat_map_flat_map {A B C} (f : B -> list C) (g : A -> list B)
    (l : list A) :
  flat_map f (flat_map g l) = flat_map (fun x => flat_map f (g x)) l.
Proof.
  induction l as [| x l IH]; [reflexivity |].
  cbn [flat_map]. rewrite flat_map_app, IH. reflexivity.
Qed.

Lemma flat_map_map {A B C} (f : B -> list C) (g : A -> B) (l : list A) :
  flat_map f (map g l) = flat_map (fun x => f (g x)) l.
Proof.
  induction l as [| x l IH]; [reflexivity |].
  cbn [map flat_map]. rewrite IH. reflexivity.
Qed.

Lemma flat_map_guard_length {A B} (f : A -> list B) (p : A -> bool)
    (c : nat) (l : list A) :
  (forall x, In x l -> length (f x) = if p x then 0%nat else c) ->
  length (flat_map f l)
  = (length (filter (fun x => negb (p x)) l) * c)%nat.
Proof.
  induction l as [| x l IH]; intros H; [reflexivity |].
  cbn [flat_map filter]. rewrite length_app, (H x (or_introl eq_refl)).
  rewrite IH by (intros y Hy; apply H; right; exact Hy).
  destruct (p x); cbn [negb length]; lia.
Qed.

Lemma count_one_out (i n s : nat) :
  (length (filter (fun k => negb (Nat.eqb i k)) (seq s n))
   + (if Nat.leb s i && Nat.ltb i (s + n) then 1 else 0))%nat = n.
Proof.
  revert s. induction n as [| n IH]; intros s.
  - cbn [seq filter length].
    destruct (Nat.leb_spec s i), (Nat.ltb_spec i (s + 0)); cbn [andb]; lia.
  - cbn [seq filter]. specialize (IH (S s)).
    destruct (Nat.eqb_spec i s) as [Ei | Ei]; cbn [negb length];
      destruct (Nat.leb_spec (S s) i), (Nat.ltb_spec i (S s + n)),
        (Nat.leb_spec s i), (Nat.ltb_spec i (s + S n));
      cbn [andb] in *; lia.
Qed.

Lemma count_two_out (i j n s : nat) :
  i <> j ->
  (length (filter (fun k => negb (Nat.eqb i k || Nat.eqb j k)) (seq s n))
   + (if Nat.leb s i && Nat.ltb i (s + n) then 1 else 0)
   + (if Nat.leb s j && Nat.ltb j (s + n) then 1 else 0))%nat = n.
Proof.
  intros Hij. revert s. induction n as [| n IH]; intros s.
  - cbn [seq filter length].
    destruct (Nat.leb_spec s i), (Nat.ltb_spec i (s + 0)),
      (Nat.leb_spec s j), (Nat.ltb_spec j (s + 0)); cbn [andb]; lia.
  - cbn [seq filter]. specialize (IH (S s)).
    destruct (Nat.eqb_spec i s) as [Ei | Ei],
      (Nat.eqb_spec j s) as [Ej | Ej]; cbn [orb negb length];
      destruct (Nat.leb_spec (S s) i), (Nat.ltb_spec i (S s + n)),
        (Nat.leb_spec s i), (Nat.ltb_spec i (s + S n)),
        (Nat.leb_spec (S s) j), (Nat.ltb_spec j (S s + n)),
        (Nat.leb_spec s j), (Nat.ltb_spec j (s + S n));
      cbn [andb] in *; lia.
Qed.

Lemma length_others (i : nat) (row : list Wire) :
  (i < length row)%nat -> length (others i row) = (length row - 1)%nat.
Proof.
  intros Hi.
  destruct (nth_error row i) as [a |] eqn:E;
    [| apply nth_error_None in E; lia].
  destruct (nth_error_split _ _ E) as (l1 & l2 & -> & <-).
  rewrite others_split, !length_app. cbn [length]. lia.
Qed.

Lemma triples_length (G : Group) (ballot : list (list Wire)) (n : nat) :
  length (flat_map (triple_constraints G ballot) (product3 n))
  = (n * ((n - 1) * ((n - 2) * 2)))%nat.
Proof.
  unfold product3. rewrite flat_map_flat_map.
  rewrite (flat_map_constant_length (c := ((n - 1) * ((n - 2) * 2))%nat)),
    length_seq; [reflexivity |].
  intros i Hi. apply in_seq in Hi. rewrite flat_map_flat_map.
  rewrite (flat_map_guard_length _ (fun j => Nat.eqb i j)
             ((n - 2) * 2)%nat).
  - assert (Hc : length (filter (fun k => negb (Nat.eqb i k)) (seq 0 n))
                = (n - 1)%nat).
    { pose proof (count_one_out i n 0) as Hc.
      destruct (Nat.leb_spec 0 i), (Nat.ltb_spec i (0 + n));
        cbn [andb] in Hc; lia. }
    rewrite Hc. reflexivity.
  - intros j Hj. apply in_seq in Hj. rewrite flat_map_map.
    unfold triple_constraints.
    destruct (Nat.eqb_spec i j) as [Eij | Eij]; cbn [orb].
    + rewrite (flat_map_constant_length (c := 0%nat));
        [lia | intros k _; reflexivity].
    + rewrite (flat_map_guard_length _
                 (fun k => Nat.eqb i k || Nat.eqb j k) 2).
      * assert (Hc : length (filter (fun k => negb (Nat.eqb i k
                                                   || Nat.eqb j k))
                                    (seq 0 n)) = (n - 2)%nat).
        { pose proof (count_two_out i j n 0 Eij) as Hc.
          destruct (Nat.leb_spec 0 i), (Nat.ltb_spec i (0 + n)),
            (Nat.leb_spec 0 j), (Nat.ltb_spec j (0 + n));
            cbn [andb] in Hc; lia. }
        rewrite Hc. reflexivity.
      * intros k _. destruct (Nat.eqb i k || Nat.eqb j k); reflexivity.
Qed.

(** The number of assertions that [assert_condorcet_ballot] registers on a
    matrix of [n] rows of [n] entries: one for each entry off the
    diagonal, and two for each triple of distinct candidates,
    [n (n - 1) + 2 n (n - 1) (n - 2)] in all, whatever the entries hold. *)
Theorem condorcet_assertion_count (G : Group) (n : nat)
    (ballot : list (list Wire)) :
  square n ballot ->
  length (asserted (assert_condorcet_ballot G ballot))
  = (n * (n - 1) + 2 * (n * (n - 1) * (n - 2)))%nat.
Proof.
  intros Hsq. rewrite (condorcet_square G n) by assumption.
  destruct Hsq as [Hlen Hrows]. cbn [asserted fst].
  rewrite length_app, triples_length.
  rewrite (flat_map_constant_length (c := (n - 1)%nat)).
  - unfold enumerate. rewrite length_combine, length_seq, Hlen, Nat.min_id.
    generalize (n - 1)%nat (n - 2)%nat. intros a b. ring.
  - intros [i row] Hin. cbn [fst snd]. rewrite length_map.
    apply in_enumerate in Hin.
    assert (Hrow : length row = n).
    { rewrite Forall_forall in Hrows. apply Hrows, (nth_error_In _ _ Hin). }
    rewrite length_others, Hrow; [reflexivity |].
    rewrite Hrow, <- Hlen. apply nth_error_Some. congruence.
Qed.

Lemma condorcet_assertion_count_witness :
  length (asserted (assert_condorcet_ballot BN254 three_cycle)) = 18%nat.
Proof.
  apply (condorcet_assertion_count BN254 3 three_cycle).
  split; [reflexivity | repeat constructor].
Defined.
